(** * EURP Telegram bot: mint / burn watcher

    A shallow embedding of [src/index.js] and the properties of its
    event-ingestion and de-duplication pipeline.

    The repository holds two variants of the program.  Both share
    [getTokenMeta], [formatAmount], [txLink] and [handleLog]; they differ in
    [startListening]:
    - the subscription variant registers a listener on a log filter
      ([Push.onLog]);
    - the polling variant registers a listener on new blocks and fetches the
      logs of a block range ([Poll.onBlock]).

    JavaScript numbers that hold block heights are modelled by [Z], the
    module-level [Map] by a [gmap], the module-level [Set] by its ordered
    entry table, and the asynchronous code by a state-and-exception monad
    over an explicit program state; the outside world (RPC node, Telegram,
    clock) is a record of oracles indexed by the number of external calls
    made so far.  [CONFIRMATIONS] stands for the number that
    [Number(CONFIRMATIONS)] yields.  In the monad a call of a listener runs
    to completion before the next one starts; calls in flight together,
    each suspended at its [await]s and resumed in some order, are modelled
    separately ([Async]) and agree with the monad when a call runs with
    nothing in between. *)

From Stdlib Require Import ZArith QArith Qround String Ascii List Lia DecimalString.
From stdpp Require Import gmap strings list.

Local Open Scope Z_scope.
Local Open Scope string_scope.
Local Open Scope list_scope.

(** ** Strings *)

(** [String.prototype.toLowerCase] on the ASCII range, which is all an
    address string contains. *)
Definition lower_ascii (c : ascii) : ascii :=
  let n := nat_of_ascii c in
  if (Nat.leb 65 n && Nat.leb n 90)%bool then ascii_of_nat (n + 32)%nat else c.

Fixpoint toLowerCase (s : string) : string :=
  match s with
  | EmptyString => EmptyString
  | String c r => String (lower_ascii c) (toLowerCase r)
  end.

(** Decimal rendering of an integer, as [Number.prototype.toString] and
    [BigInt.prototype.toString] give for integers. *)
Definition toString (z : Z) : string := NilZero.string_of_int (Z.to_int z).

Definition nl : string := String (ascii_of_nat 10) EmptyString.

(** ** The built-in [Set]

    ECMAScript keeps the entries of a [Set] in insertion order in a table;
    [delete] overwrites an entry by an empty marker and a set iterator is an
    index into that table which steps over the markers.  [None] is the empty
    marker. *)
Module JsSet.

Definition t := list (option string).

Definition empty : t := [].

Definition has (x : string) (d : t) : bool := bool_decide (Some x ∈ d).

Definition add (x : string) (d : t) : t :=
  if has x d then d else d ++ [Some x].

Definition delete (x : string) (d : t) : t :=
  (fun e => if bool_decide (e = Some x) then None else e) <$> d.

(** The live entries, oldest first: what iterating the set yields. *)
Definition elements (d : t) : list string := omap id d.

Definition size (d : t) : nat := length (elements d).

(** [it.next()] for an iterator at index [i]: the first live entry at or
    after [i] and the index after it; [None] is [undefined] (exhausted). *)
Fixpoint scan (rest : list (option string)) (i : nat) : option string * nat :=
  match rest with
  | [] => (None, i)
  | None :: r => scan r (S i)
  | Some x :: r => (Some x, S i)
  end.

Definition next (d : t) (i : nat) : option string * nat := scan (drop i d) i.

End JsSet.

(** ** The de-duplication set [lastSeenTx]

    [[
    lastSeenTx.add(log.transactionHash);
    if (lastSeenTx.size > 1000) {
        const it = lastSeenTx.values();
        for (let i = 0; i < 200; i++) lastSeenTx.delete(it.next().value);
    }
    ]] *)
Definition ceiling : nat := 1000.
Definition batch : nat := 200.

(** The [for] loop: [n] rounds left, iterator at index [it].  Deleting
    [undefined] from a set of strings does nothing. *)
Fixpoint evict_loop (n : nat) (it : nat) (d : JsSet.t) : JsSet.t :=
  match n with
  | O => d
  | S n' =>
      let '(v, it') := JsSet.next d it in
      evict_loop n' it' (match v with Some x => JsSet.delete x d | None => d end)
  end.

Definition record_seen (h : string) (d : JsSet.t) : JsSet.t :=
  let d' := JsSet.add h d in
  if Nat.ltb ceiling (JsSet.size d') then evict_loop batch 0 d' else d'.

(** ** Classification of a decoded transfer

    [[
    const ZERO = "0x0000000000000000000000000000000000000000";
    if (from.toLowerCase() !== ZERO && to.toLowerCase() !== ZERO) return;
    const type = from.toLowerCase() === ZERO ? "Mint" : "Burn";
    ]] *)
Definition ZERO : string := "0x0000000000000000000000000000000000000000".

Inductive Classification := Mint | Burn | Ignored.

Definition is_zero (a : string) : bool := String.eqb (toLowerCase a) ZERO.

Definition classify (from to : string) : Classification :=
  if (negb (is_zero from) && negb (is_zero to))%bool then Ignored
  else if is_zero from then Mint else Burn.

Definition type_label (c : Classification) : string :=
  match c with
  | Mint => "🪙 Mint"
  | Burn => "🔥 Burn"
  | Ignored => EmptyString
  end.

(** ** Data model *)

Record Log := mkLog {
  address : string;
  topics : list string;
  data : string;
  transactionHash : string;
  blockNumber : Z
}.

(** [parsed.args] of a decoded [Transfer] event. *)
Record TransferArgs := mkArgs { from : string; to : string; value : Z }.

(** [fetchedAt] is absent from the placeholder object. *)
Record TokenMeta := mkMeta { symbol : string; decimals : Z; fetchedAt : option Z }.

(** The query object handed to [provider.getLogs]. *)
Record Filter := mkFilter {
  f_address : option string;
  f_topics : list string;
  fromBlock : Z;
  toBlock : Z
}.

(** [ethers.id("Transfer(address,address,uint256)")]. *)
Definition TRANSFER_TOPIC : string :=
  "0xddf252ad1be2c89b69c2b068fc378daa952ba7f163c4a11628f55a4df523b3ef".

(** [NonNetworkTypeError] is a rejection with a [TypeError] whose message
    is not one of the network failures that [p-retry] recognises. *)
Inductive JsError :=
| ParseError (l : Log)
| InvalidAddress (a : string)
| RpcError (method : string)
| NonNetworkTypeError (method : string)
| TelegramError.

(** What a pending [setTimeout] callback will do. *)
Inductive Timer := GetBlockLater (n : Z).

(** Calls that leave the process, and the console, in program order. *)
Inductive Event :=
| EvParseLog (l : Log)
| EvSymbol (a : string) (r : option string)
| EvDecimals (a : string) (r : option Z)
| EvBackoff (ms : Z)
| EvSendMessage (chat msg : string) (delivered : bool)
| EvGetLogs (f : Filter) (ok : bool)
| EvGetBlockNumber (r : option Z)
| EvGetBlock (n : Z)
| EvConsoleWarn (e : JsError)
| EvConsoleError (e : JsError).

(** The environment variables the pipeline reads. *)
Record Config := mkConfig {
  TELEGRAM_CHAT_ID : string;
  CONFIRMATIONS : Z;
  TOKEN_ADDRESS : option string
}.

(** The outside world.  An oracle that takes a [nat] is asked with the
    number of external calls made before this one, so that the same call can
    be answered differently at different times; [None] and [false] are a
    rejected promise.  [parseLog], [getAddress] and [formatUnits] are the
    pure [ethers] helpers, [None] when they throw.  [type_error] says of the
    call made at that time whether its rejection, if it is rejected, is a
    [TypeError] other than a network failure. *)
Record World := mkWorld {
  parseLog : Log -> option TransferArgs;
  getAddress : string -> option string;
  formatUnits : Z -> Z -> option string;
  contract_symbol : nat -> string -> option string;
  contract_decimals : nat -> string -> option Z;
  sendMessage : nat -> string -> string -> bool;
  getLogs : nat -> Filter -> option (list Log);
  getBlockNumber : nat -> option Z;
  getBlock : nat -> Z -> bool;
  Date_now : nat -> Z;
  type_error : nat -> bool
}.

(** The mutable state of the process: the two module-level caches, the
    cursor captured by the block listener, the pending timers, and the
    ghost fields [tick] (external calls so far) and [trace]. *)
Record State := mkState {
  tokenCache : gmap string TokenMeta;
  lastSeenTx : JsSet.t;
  lastProcessedBlock : Z;
  timers : list (Z * Timer);
  tick : nat;
  trace : list Event
}.

Definition initial : State :=
  {| tokenCache := ∅; lastSeenTx := JsSet.empty; lastProcessedBlock := 0;
     timers := []; tick := O; trace := [] |}.

(** ** A state and exception monad for the asynchronous code *)

Inductive Outcome (A : Type) :=
| Return (a : A)
| Throw (e : JsError).
Arguments Return {A} a.
Arguments Throw {A} e.

Definition M (A : Type) : Type := State -> Outcome A * State.

Definition ret {A} (a : A) : M A := fun s => (Return a, s).

Definition throw {A} (e : JsError) : M A := fun s => (Throw e, s).

Definition bind {A B} (c : M A) (k : A -> M B) : M B :=
  fun s => match c s with
           | (Return a, s') => k a s'
           | (Throw e, s') => (Throw e, s')
           end.

Definition try_catch {A} (c : M A) (handler : JsError -> M A) : M A :=
  fun s => match c s with
           | (Return a, s') => (Return a, s')
           | (Throw e, s') => handler e s'
           end.

Notation "'let!' x ':=' c 'in' k" := (bind c (fun x => k))
  (at level 10, x name, c at level 100, k at level 200).

Definition emit (e : Event) : M unit :=
  fun s => (Return tt,
            {| tokenCache := tokenCache s; lastSeenTx := lastSeenTx s;
               lastProcessedBlock := lastProcessedBlock s; timers := timers s;
               tick := tick s; trace := trace s ++ [e] |}).

(** One external call: the oracle is asked at the current [tick], which the
    call then advances. *)
Definition ask {A} (oracle : nat -> A) : M A :=
  fun s => (Return (oracle (tick s)),
            {| tokenCache := tokenCache s; lastSeenTx := lastSeenTx s;
               lastProcessedBlock := lastProcessedBlock s; timers := timers s;
               tick := S (tick s); trace := trace s |}).

Definition set_tokenCache (m : gmap string TokenMeta) : M unit :=
  fun s => (Return tt,
            {| tokenCache := m; lastSeenTx := lastSeenTx s;
               lastProcessedBlock := lastProcessedBlock s; timers := timers s;
               tick := tick s; trace := trace s |}).

Definition set_lastSeenTx (d : JsSet.t) : M unit :=
  fun s => (Return tt,
            {| tokenCache := tokenCache s; lastSeenTx := d;
               lastProcessedBlock := lastProcessedBlock s; timers := timers s;
               tick := tick s; trace := trace s |}).

Definition set_lastProcessedBlock (b : Z) : M unit :=
  fun s => (Return tt,
            {| tokenCache := tokenCache s; lastSeenTx := lastSeenTx s;
               lastProcessedBlock := b; timers := timers s;
               tick := tick s; trace := trace s |}).

Definition setTimeout (t : Timer) (ms : Z) : M unit :=
  fun s => (Return tt,
            {| tokenCache := tokenCache s; lastSeenTx := lastSeenTx s;
               lastProcessedBlock := lastProcessedBlock s;
               timers := timers s ++ [(ms, t)];
               tick := tick s; trace := trace s |}).

Definition set_timers (l : list (Z * Timer)) : M unit :=
  fun s => (Return tt,
            {| tokenCache := tokenCache s; lastSeenTx := lastSeenTx s;
               lastProcessedBlock := lastProcessedBlock s; timers := l;
               tick := tick s; trace := trace s |}).

Definition gets {A} (f : State -> A) : M A := fun s => (Return (f s), s).

Definition of_option {A} (o : option A) (e : JsError) : M A :=
  match o with Some a => ret a | None => throw e end.

(** ** [p-retry]

    [pRetry(fn, {retries, factor})] runs [fn]; when it rejects with a
    [TypeError] that is not a network failure it rejects with that error at
    once; when it rejects otherwise and attempts are left it waits
    [round(1000 * factor ^ attempt)] milliseconds (the library's default
    [minTimeout] of one second) and runs it again; when none is left it
    rejects with the last error.  ([fn] here never rejects with the
    library's own [AbortError] or with a value that is not an [Error].) *)
Record RetryOptions := mkRetry { retries : nat; factor : Q }.

Definition gives_up (e : JsError) : bool :=
  match e with
  | NonNetworkTypeError _ => true
  | _ => false
  end.

Definition backoff (o : RetryOptions) (attempt : nat) : Z :=
  Qfloor (Qplus (Qmult (1000 # 1) (Qpower (factor o) (Z.of_nat attempt))) (1 # 2)).

Fixpoint pRetry_from {A} (fn : M A) (o : RetryOptions) (attempt left : nat) : M A :=
  try_catch fn
    (fun e =>
       if gives_up e then throw e
       else
         match left with
         | O => throw e
         | S left' =>
             let! _ := emit (EvBackoff (backoff o attempt)) in
             pRetry_from fn o (S attempt) left'
         end).

Definition pRetry {A} (fn : M A) (o : RetryOptions) : M A :=
  pRetry_from fn o 0 (retries o).

(** [{ retries: 2, factor: 1.5 }] *)
Definition meta_retry : RetryOptions := {| retries := 2; factor := 3 # 2 |}.

(** ** The shared pipeline *)

Definition txLink (txHash : string) : string := "https://basescan.org/tx/" +:+ txHash.

(** [{ symbol: "TOKEN", decimals: 18 }] *)
Definition placeholder : TokenMeta :=
  {| symbol := "TOKEN"; decimals := 18; fetchedAt := None |}.

Section Pipeline.

Context (cfg : Config) (w : World).

Definition provider_getBlockNumber : M Z :=
  let! r := ask (getBlockNumber w) in
  let! _ := emit (EvGetBlockNumber r) in
  of_option r (RpcError "getBlockNumber").

Definition provider_getLogs (f : Filter) : M (list Log) :=
  let! r := ask (fun t => getLogs w t f) in
  let! _ := emit (EvGetLogs f (bool_decide (is_Some r))) in
  of_option r (RpcError "getLogs").

(** [provider.getBlock(n).catch(() => {})] *)
Definition provider_getBlock_caught (n : Z) : M unit :=
  let! _ := ask (fun t => getBlock w t n) in
  emit (EvGetBlock n).

(** The error a read of the contract rejects with. *)
Definition rejection (fatal : bool) (method : string) : JsError :=
  if fatal then NonNetworkTypeError method else RpcError method.

Definition contract_symbol_call (a : string) : M string :=
  let! fatal := gets (fun s => type_error w (tick s)) in
  let! r := ask (fun t => contract_symbol w t a) in
  let! _ := emit (EvSymbol a r) in
  of_option r (rejection fatal "symbol").

Definition contract_decimals_call (a : string) : M Z :=
  let! fatal := gets (fun s => type_error w (tick s)) in
  let! r := ask (fun t => contract_decimals w t a) in
  let! _ := emit (EvDecimals a r) in
  of_option r (rejection fatal "decimals").

Definition bot_sendMessage (chat msg : string) : M unit :=
  let! ok := ask (fun t => sendMessage w t chat msg) in
  let! _ := emit (EvSendMessage chat msg ok) in
  if ok : bool then ret tt else throw TelegramError.

Definition ethers_getAddress (a : string) : M string :=
  of_option (getAddress w a) (InvalidAddress a).

Definition getTokenMeta (address : string) : M TokenMeta :=
  let! address := ethers_getAddress address in
  let! cache := gets tokenCache in
  match cache !! address with
  | Some meta => ret meta
  | None =>
      let! symbol := pRetry (contract_symbol_call address) meta_retry in
      let! decimals := pRetry (contract_decimals_call address) meta_retry in
      let! now := gets (fun s => Date_now w (tick s)) in
      let meta := {| symbol := symbol; decimals := decimals; fetchedAt := Some now |} in
      let! cache := gets tokenCache in
      let! _ := set_tokenCache (<[address := meta]> cache) in
      ret meta
  end.

Definition formatAmount (valueBN : Z) (decimals : Z) : string :=
  match formatUnits w valueBN decimals with
  | Some s => s
  | None => toString valueBN
  end.

Definition message (type : string) (meta : TokenMeta) (tokenAddr : string)
    (parsed : TransferArgs) (amountStr : string) (log : Log) : string :=
  type +:+ " detected on *Base*" +:+ nl +:+ nl +:+
  "*Token:* " +:+ symbol meta +:+ " (`" +:+ tokenAddr +:+ "`)" +:+ nl +:+
  "*From:* `" +:+ from parsed +:+ "`" +:+ nl +:+
  "*To:* `" +:+ to parsed +:+ "`" +:+ nl +:+
  "*Amount:* `" +:+ amountStr +:+ "`" +:+ nl +:+
  "*Tx:* [" +:+ transactionHash log +:+ "](" +:+ txLink (transactionHash log) +:+ ")" +:+ nl +:+
  "*Block:* " +:+ toString (blockNumber log).

(** The part of [handleLog] after the early returns. *)
Definition notify (type : Classification) (parsed : TransferArgs) (log : Log) : M unit :=
  let! tokenAddr := ethers_getAddress (address log) in
  let! meta :=
    try_catch (getTokenMeta tokenAddr)
      (fun err => let! _ := emit (EvConsoleWarn err) in ret placeholder) in
  let amountStr := formatAmount (value parsed) (decimals meta) in
  let msg := message (type_label type) meta tokenAddr parsed amountStr log in
  let! _ := bot_sendMessage (TELEGRAM_CHAT_ID cfg) msg in
  let! seen := gets lastSeenTx in
  set_lastSeenTx (record_seen (transactionHash log) seen).

Definition handleLog (log : Log) : M unit :=
  try_catch
    (let! seen := gets (fun s => JsSet.has (transactionHash log) (lastSeenTx s)) in
     if seen : bool then ret tt
     else
       let! _ := emit (EvParseLog log) in
       let! parsed := of_option (parseLog w log) (ParseError log) in
       match classify (from parsed) (to parsed) with
       | Ignored => ret tt
       | type => notify type parsed log
       end)
    (fun err => emit (EvConsoleError err)).

End Pipeline.

(** ** [startListening], subscription variant *)
Module Push.

(** The listener registered with [provider.on(filter, ...)]; [None] is a
    [null] or [undefined] log. *)
Definition onLog (cfg : Config) (w : World) (log : option Log) : M unit :=
  match log with
  | None => ret tt
  | Some log =>
      if String.eqb (transactionHash log) EmptyString then ret tt
      else
        let minConfirmations := CONFIRMATIONS cfg in
        let! returned :=
          (if minConfirmations >? 1 then
             try_catch
               (let! latest := provider_getBlockNumber w in
                if blockNumber log + minConfirmations - 1 >? latest then
                  let! _ := setTimeout (GetBlockLater (blockNumber log)) 30000 in
                  ret true
                else ret false)
               (fun _ => ret false)
           else ret false) in
        if returned : bool then ret tt else handleLog cfg w log
  end.

(** The callback of a timer, when it fires. *)
Definition fire (w : World) (t : Timer) : M unit :=
  match t with
  | GetBlockLater n => provider_getBlock_caught w n
  end.

Fixpoint fire_all (w : World) (l : list (Z * Timer)) : M unit :=
  match l with
  | [] => ret tt
  | (_, t) :: rest => let! _ := fire w t in fire_all w rest
  end.

(** Every pending timer expires. *)
Definition expire (w : World) : M unit :=
  let! pending := gets timers in
  let! _ := set_timers [] in
  fire_all w pending.

End Push.

(** ** [startListening], polling variant *)
Module Poll.

(** The body of [for (const log of logs)]; the early [ret tt] is the
    [continue]. *)
Definition gate (cfg : Config) (w : World) (log : Log) : M unit :=
  let minConf := CONFIRMATIONS cfg in
  if minConf >? 1 then
    let! latest := provider_getBlockNumber w in
    if blockNumber log + minConf - 1 >? latest then ret tt
    else handleLog cfg w log
  else handleLog cfg w log.

Fixpoint for_logs (cfg : Config) (w : World) (logs : list Log) : M unit :=
  match logs with
  | [] => ret tt
  | log :: rest => let! _ := gate cfg w log in for_logs cfg w rest
  end.

(** [if (!lastProcessedBlock) lastProcessedBlock = blockNumber - 1] *)
Definition first_run (height : Z) : M unit :=
  let! last := gets lastProcessedBlock in
  if (last =? 0)%Z then set_lastProcessedBlock (height - 1) else ret tt.

(** The [try] block of the listener registered with
    [provider.on("block", ...)]. *)
Definition pass (cfg : Config) (w : World) (height : Z) : M unit :=
  let! _ := first_run height in
  let! last := gets lastProcessedBlock in
  let fromBlock := last + 1 in
  let toBlock := height in
  if (toBlock <? fromBlock)%Z then ret tt
  else
    let filter := {| f_address := TOKEN_ADDRESS cfg; f_topics := [TRANSFER_TOPIC];
                     fromBlock := fromBlock; toBlock := toBlock |} in
    let! logs := provider_getLogs w filter in
    let! _ := for_logs cfg w logs in
    set_lastProcessedBlock height.

Definition onBlock (cfg : Config) (w : World) (height : Z) : M unit :=
  try_catch (pass cfg w height) (fun err => emit (EvConsoleError err)).

(** A sequence of new-block notifications, each pass run to completion
    before the next. *)
Fixpoint notifications (cfg : Config) (w : World) (heights : list Z) (s : State) : State :=
  match heights with
  | [] => s
  | b :: rest => notifications cfg w rest (snd (onBlock cfg w b s))
  end.

End Poll.

(** ** Observations on a trace *)

(** The messages the channel accepted, in order. *)
Definition delivered (tr : list Event) : list string :=
  omap (fun e => match e with EvSendMessage _ msg true => Some msg | _ => None end) tr.

(** The messages handed to [bot.sendMessage], delivered or not. *)
Definition dispatched (tr : list Event) : list string :=
  omap (fun e => match e with EvSendMessage _ msg _ => Some msg | _ => None end) tr.

(** The logs handed to [iface.parseLog]. *)
Definition decoded (tr : list Event) : list Log :=
  omap (fun e => match e with EvParseLog l => Some l | _ => None end) tr.

(** The block ranges asked of [provider.getLogs]. *)
Definition fetched (tr : list Event) : list (Z * Z) :=
  omap (fun e => match e with
                 | EvGetLogs f _ => Some (fromBlock f, toBlock f)
                 | _ => None
                 end) tr.

(** ** Vocabulary for the statements *)

(** [n] more external calls were made and [evs] appended to the trace. *)
Definition advance (n : nat) (evs : list Event) (s : State) : State :=
  {| tokenCache := tokenCache s; lastSeenTx := lastSeenTx s;
     lastProcessedBlock := lastProcessedBlock s; timers := timers s;
     tick := (n + tick s)%nat; trace := trace s ++ evs |}.

Definition with_seen (d : JsSet.t) (s : State) : State :=
  {| tokenCache := tokenCache s; lastSeenTx := d;
     lastProcessedBlock := lastProcessedBlock s; timers := timers s;
     tick := tick s; trace := trace s |}.

Definition with_cursor (b : Z) (s : State) : State :=
  {| tokenCache := tokenCache s; lastSeenTx := lastSeenTx s;
     lastProcessedBlock := b; timers := timers s;
     tick := tick s; trace := trace s |}.

(** The set after recording the identifiers [hs] one after the other,
    starting from the empty set of a fresh process. *)
Definition records (hs : list string) : JsSet.t :=
  foldl (fun d h => record_seen h d) JsSet.empty hs.

(** [handleLog] on each log of a list in turn. *)
Fixpoint handle_each (cfg : Config) (w : World) (logs : list Log) (s : State) : State :=
  match logs with
  | [] => s
  | l :: rest => handle_each cfg w rest (snd (handleLog cfg w l s))
  end.

(** The [try]/[catch] around [getTokenMeta] in [handleLog]. *)
Definition meta_or_placeholder (w : World) (tokenAddr : string) : M TokenMeta :=
  try_catch (getTokenMeta w tokenAddr)
    (fun err => let! _ := emit (EvConsoleWarn err) in ret placeholder).

(** [preserves R c]: [c] relates every state to the state it ends in,
    whether it returns or throws. *)
Definition preserves {A} (R : relation State) (c : M A) : Prop :=
  ∀ s, R s (c s).2.

(** A field of the state is unchanged. *)
Definition same {B} (f : State → B) : relation State := fun s s' => f s' = f s.

(** The trace grew, and only by events that satisfy [P]. *)
Definition grows (P : Event → Prop) : relation State :=
  fun s s' => ∃ tr, trace s' = trace s ++ tr ∧ Forall P tr.


(** The events of a metadata fetch. *)
Definition quiet (e : Event) : Prop :=
  match e with
  | EvSymbol _ _ | EvDecimals _ _ | EvBackoff _ => True
  | _ => False
  end.

(** Every event but a log fetch. *)
Definition no_fetch (e : Event) : Prop :=
  match e with
  | EvGetLogs _ _ => False
  | _ => True
  end.

(** The events of [s'] that [s] does not have yet. *)
Definition since (s s' : State) : list Event := drop (length (trace s)) (trace s').

(** The fallback to the placeholder logs a warning; nothing else does. *)
Definition warned (tr : list Event) : bool :=
  existsb (fun e => match e with EvConsoleWarn _ => true | _ => false end) tr.

Definition throws {A} (c : M A) (s : State) : Prop :=
  match (c s).1 with Throw _ => True | Return _ => False end.

(** A read of the contract answered by [reply], as [pRetry] with
    [meta_retry] makes it: at most three attempts, the first success or the
    first [TypeError] that is not a network failure ([fatal]) ends them, and
    the pauses after the first and the second failure are 1000 and 1500
    milliseconds. *)
Definition three_attempts {A} (reply : nat → option A) (fatal : nat → bool)
    (ev : option A → Event) (method : string) (s : State) : Outcome A * State :=
  match reply (tick s) with
  | Some v => (Return v, advance 1 [ev (Some v)] s)
  | None =>
      if fatal (tick s)
      then (Throw (NonNetworkTypeError method), advance 1 [ev None] s)
      else
        match reply (S (tick s)) with
        | Some v => (Return v, advance 2 [ev None; EvBackoff 1000; ev (Some v)] s)
        | None =>
            if fatal (S (tick s))
            then (Throw (NonNetworkTypeError method),
                  advance 2 [ev None; EvBackoff 1000; ev None] s)
            else
              (match reply (S (S (tick s))) with
               | Some v => Return v
               | None => Throw (rejection (fatal (S (S (tick s)))) method)
               end,
               advance 3 [ev None; EvBackoff 1000; ev None; EvBackoff 1500;
                          ev (reply (S (S (tick s))))] s)
        end
  end.

Definition with_tokenCache (m : gmap string TokenMeta) (s : State) : State :=
  {| tokenCache := m; lastSeenTx := lastSeenTx s;
     lastProcessedBlock := lastProcessedBlock s; timers := timers s;
     tick := tick s; trace := trace s |}.

(** [getTokenMeta] on a cache miss for the normalised address [a]: the two
    reads one after the other, each with its attempts, then the cache
    write. *)
Definition fetch_and_cache (w : World) (a : string) (s : State) : Outcome TokenMeta * State :=
  match three_attempts (fun t => contract_symbol w t a) (type_error w) (EvSymbol a)
          "symbol" s with
  | (Throw e, s1) => (Throw e, s1)
  | (Return sym, s1) =>
      match three_attempts (fun t => contract_decimals w t a) (type_error w)
              (EvDecimals a) "decimals" s1 with
      | (Throw e, s2) => (Throw e, s2)
      | (Return dec, s2) =>
          let meta := {| symbol := sym; decimals := dec;
                         fetchedAt := Some (Date_now w (tick s2)) |} in
          (Return meta, with_tokenCache (<[a := meta]> (tokenCache s2)) s2)
      end
  end.

(** The first block of the range that a notification of [height] asks for
    in state [s]: [lastProcessedBlock + 1] after the first-run adjustment. *)
Definition range_start (height : Z) (s : State) : Z :=
  (if (lastProcessedBlock s =? 0)%Z then height - 1 else lastProcessedBlock s) + 1.

(** The classification as the specification words it: Mint if only the
    sender is the zero address, Burn if only the recipient is, Ignored
    otherwise. *)
Definition spec_classify (from to : string) : Classification :=
  if (is_zero from && negb (is_zero to))%bool then Mint
  else if (is_zero to && negb (is_zero from))%bool then Burn
  else Ignored.

(** Every way [handleLog] can end, with the state it ends in. *)
Inductive handled (cfg : Config) (w : World) (log : Log) (s : State) : State → Prop :=
| handled_seen :
    JsSet.has (transactionHash log) (lastSeenTx s) = true →
    handled cfg w log s s
| handled_undecodable :
    JsSet.has (transactionHash log) (lastSeenTx s) = false →
    parseLog w log = None →
    handled cfg w log s (advance 0 [EvParseLog log; EvConsoleError (ParseError log)] s)
| handled_ignored parsed :
    JsSet.has (transactionHash log) (lastSeenTx s) = false →
    parseLog w log = Some parsed →
    classify (from parsed) (to parsed) = Ignored →
    handled cfg w log s (advance 0 [EvParseLog log] s)
| handled_bad_address parsed :
    JsSet.has (transactionHash log) (lastSeenTx s) = false →
    parseLog w log = Some parsed →
    classify (from parsed) (to parsed) ≠ Ignored →
    getAddress w (address log) = None →
    handled cfg w log s
      (advance 0 [EvParseLog log; EvConsoleError (InvalidAddress (address log))] s)
| handled_notified parsed tokenAddr meta s1 msg :
    JsSet.has (transactionHash log) (lastSeenTx s) = false →
    parseLog w log = Some parsed →
    classify (from parsed) (to parsed) ≠ Ignored →
    getAddress w (address log) = Some tokenAddr →
    meta_or_placeholder w tokenAddr (advance 0 [EvParseLog log] s) = (Return meta, s1) →
    msg = message (type_label (classify (from parsed) (to parsed))) meta tokenAddr parsed
            (formatAmount w (value parsed) (decimals meta)) log →
    sendMessage w (tick s1) (TELEGRAM_CHAT_ID cfg) msg = true →
    handled cfg w log s
      (with_seen (record_seen (transactionHash log) (lastSeenTx s1))
         (advance 1 [EvSendMessage (TELEGRAM_CHAT_ID cfg) msg true] s1))
| handled_undelivered parsed tokenAddr meta s1 msg :
    JsSet.has (transactionHash log) (lastSeenTx s) = false →
    parseLog w log = Some parsed →
    classify (from parsed) (to parsed) ≠ Ignored →
    getAddress w (address log) = Some tokenAddr →
    meta_or_placeholder w tokenAddr (advance 0 [EvParseLog log] s) = (Return meta, s1) →
    msg = message (type_label (classify (from parsed) (to parsed))) meta tokenAddr parsed
            (formatAmount w (value parsed) (decimals meta)) log →
    sendMessage w (tick s1) (TELEGRAM_CHAT_ID cfg) msg = false →
    handled cfg w log s
      (advance 1 [EvSendMessage (TELEGRAM_CHAT_ID cfg) msg false;
                  EvConsoleError TelegramError] s1).

(** ** Concrete runs

    A small chain and a scripted outside world on which the pipeline can be
    evaluated. *)
Module Scenario.

Definition token : string := "0x036CbD53842c5426634e7929541eC2318f3dCF7e".
Definition alice : string := "0x70997970C51812dc3A010C7d01b50e0d17dc79C8".

Definition cfg (confirmations : Z) : Config :=
  {| TELEGRAM_CHAT_ID := "-1001"; CONFIRMATIONS := confirmations;
     TOKEN_ADDRESS := Some token |}.

(** A [Transfer] log of the token; the two indexed topics hold the
    addresses as the decoder returns them. *)
Definition transfer (sender recipient tx : string) (height : Z) : Log :=
  {| address := token; topics := [TRANSFER_TOPIC; sender; recipient];
     data := "0x0de0b6b3a7640000"; transactionHash := tx; blockNumber := height |}.

Definition decode (l : Log) : option TransferArgs :=
  match topics l with
  | [sig; sender; recipient] =>
      if String.eqb sig TRANSFER_TOPIC
      then Some {| from := sender; to := recipient; value := 1000000000000000000 |}
      else None
  | _ => None
  end.

Definition matches (f : Filter) (l : Log) : bool :=
  (match f_address f with Some a => String.eqb a (address l) | None => true end
   && (fromBlock f <=? blockNumber l)%Z && (blockNumber l <=? toBlock f)%Z)%bool.

(** What the world is made of: the logs on chain, the head height and the
    availability of each service at each external call. *)
Record Net := mkNet {
  chain : list Log;
  head : nat → option Z;
  logs_up : nat → bool;
  meta_up : nat → bool;
  telegram_up : nat → bool
}.

Definition world (n : Net) : World :=
  {| parseLog := decode;
     getAddress := fun a => Some a;
     formatUnits := fun v d =>
       if ((v =? 1000000000000000000) && (d =? 18))%Z then Some "1.0" else None;
     contract_symbol := fun t _ => if meta_up n t then Some "EURP" else None;
     contract_decimals := fun t _ => if meta_up n t then Some 18%Z else None;
     sendMessage := fun t _ _ => telegram_up n t;
     getLogs := fun t f => if logs_up n t then Some (List.filter (matches f) (chain n)) else None;
     getBlockNumber := head n;
     getBlock := fun _ _ => true;
     Date_now := fun t => Z.of_nat t;
     type_error := fun _ => false |}.

Definition up : nat → bool := fun _ => true.
Definition down : nat → bool := fun _ => false.

Definition mint100 : Log := transfer ZERO alice "0xabc" 100.

(** CONFIRMATIONS=3, a mint in block 100, the head at 101 when the log is
    first seen and moving on afterwards. *)
Definition unconfirmed : Net :=
  {| chain := [mint100];
     head := fun t => Some (if (t <=? 1)%nat then 101 else 101 + Z.of_nat t)%Z;
     logs_up := up; meta_up := up; telegram_up := up |}.

(** The same chain once block 100 has its three confirmations. *)
Definition settled : Net :=
  {| chain := [mint100]; head := fun _ => Some 102%Z;
     logs_up := up; meta_up := up; telegram_up := up |}.


(** A young chain: a mint in block 1, and a node whose first answer to
    [getLogs] is an error. *)
Definition mint1 : Log := transfer ZERO alice "0xb01" 1.

Definition young : Net :=
  {| chain := [mint1]; head := fun t => Some 2%Z;
     logs_up := fun t => negb (t =? 0)%nat; meta_up := up; telegram_up := up |}.

(** A transfer from the zero address to the zero address. *)
Definition void : Log := transfer ZERO ZERO "0xdead" 7.

(** An ordinary transfer between two accounts. *)
Definition plain : Log := transfer alice token "0x0123" 8.

(** Two different mints emitted by one transaction. *)
Definition twin_a : Log := transfer ZERO alice "0x7717" 9.
Definition twin_b : Log := transfer ZERO token "0x7717" 9.

Definition calm : Net :=
  {| chain := [void; twin_a; twin_b]; head := fun _ => Some 50%Z;
     logs_up := up; meta_up := up; telegram_up := up |}.

(** The token contract does not answer. *)
Definition no_meta : Net :=
  {| chain := [twin_a]; head := fun _ => Some 50%Z;
     logs_up := up; meta_up := down; telegram_up := up |}.

(** Telegram rejects every message. *)
Definition no_telegram : Net :=
  {| chain := [twin_a]; head := fun _ => Some 50%Z;
     logs_up := up; meta_up := up; telegram_up := down |}.

(** 1001 distinct transaction identifiers. *)
Definition ids : list string := (fun n => toString (Z.of_nat n)) <$> seq 0 1001.

End Scenario.

(** Invariant of the seen set: no identifier is live twice. *)
Definition seen_wf (s : State) : Prop := NoDup (JsSet.elements (lastSeenTx s)).

(** ** Further vocabulary *)

(** The query objects handed to [provider.getLogs]. *)
Definition queries (tr : list Event) : list Filter :=
  omap (fun e => match e with EvGetLogs f _ => Some f | _ => None end) tr.

Definition with_timers (l : list (Z * Timer)) (s : State) : State :=
  {| tokenCache := tokenCache s; lastSeenTx := lastSeenTx s;
     lastProcessedBlock := lastProcessedBlock s; timers := l;
     tick := tick s; trace := trace s |}.

(** The seen set is duplicate-free and within its ceiling. *)
Definition seen_ok (s : State) : Prop :=
  seen_wf s ∧ (JsSet.size (lastSeenTx s) ≤ ceiling)%nat.

(** A property of the state that survives. *)
Definition keeps (P : State → Prop) : relation State := fun s s' => P s → P s'.

(** Every entry of the token cache is still there, unchanged. *)
Definition cache_extends : relation State :=
  fun s s' => ∀ a m, tokenCache s !! a = Some m → tokenCache s' !! a = Some m.

(** [h] is live in the set with at most [age] identifiers inserted after
    it. *)
Definition recent (h : string) (age : nat) (d : JsSet.t) : Prop :=
  NoDup (JsSet.elements d)
  ∧ ∃ older newer, JsSet.elements d = older ++ h :: newer ∧ (length newer ≤ age)%nat.

(** What the callback of a pending timer leaves in the trace. *)
Definition timer_event (t : Z * Timer) : Event :=
  match t.2 with GetBlockLater n => EvGetBlock n end.

(** A sequence of log events delivered to the subscription listener, each
    call run to completion before the next. *)
Fixpoint push_events (cfg : Config) (w : World) (logs : list (option Log)) (s : State) : State :=
  match logs with
  | [] => s
  | l :: rest => push_events cfg w rest (snd (Push.onLog cfg w l s))
  end.

(** ** Start-up

    [[
    const { RPC_URL, TELEGRAM_TOKEN, TELEGRAM_CHAT_ID, CONFIRMATIONS = "1",
            TOKEN_ADDRESS } = process.env;
    if (!RPC_URL || !TELEGRAM_TOKEN || !TELEGRAM_CHAT_ID) { ...; process.exit(1); }
    ]]
    followed by the start-up function: two head queries, [bot.getMe()],
    [startListening()], and [process.exit(1)] when any of them rejects. *)
Module Boot.

(** [process.env]. *)
Abbreviation Env := (gmap string string).

(** A variable that is set and not the empty string. *)
Definition truthy (v : option string) : bool :=
  match v with
  | Some (String _ _) => true
  | _ => false
  end.

Definition required : list string := ["RPC_URL"; "TELEGRAM_TOKEN"; "TELEGRAM_CHAT_ID"].

Definition env_ok (env : Env) : bool :=
  (truthy (env !! "RPC_URL") && truthy (env !! "TELEGRAM_TOKEN")
   && truthy (env !! "TELEGRAM_CHAT_ID"))%bool.

Inductive Call := GetBlockNumber | GetMe.

Inductive Status := Exit (code : Z) | Listening.

(** The replies of the node and of Telegram, by the number of calls made
    before. *)
Record Services := mkServices {
  head_reply : nat → option Z;
  getMe_reply : nat → option string
}.

Definition main (env : Env) (sv : Services) : Status * list Call :=
  if negb (env_ok env) then (Exit 1, [])
  else
    match head_reply sv 0 with
    | None => (Exit 1, [GetBlockNumber])
    | Some _ =>
        match head_reply sv 1 with
        | None => (Exit 1, [GetBlockNumber; GetBlockNumber])
        | Some _ =>
            match getMe_reply sv 2 with
            | None => (Exit 1, [GetBlockNumber; GetBlockNumber; GetMe])
            | Some _ => (Listening, [GetBlockNumber; GetBlockNumber; GetMe])
            end
        end
    end.

End Boot.

(** ** More concrete runs *)
Module Cases.

(** A log with the right signature topic and one indexed topic missing. *)
Definition garbled : Log :=
  {| address := Scenario.token; topics := [TRANSFER_TOPIC; ZERO];
     data := "0x"; transactionHash := "0xbad"; blockNumber := 9 |}.

Definition burn : Log := Scenario.transfer Scenario.alice ZERO "0xb0b" 9.

Definition mixed : Scenario.Net :=
  {| Scenario.chain := [garbled; Scenario.twin_a; burn];
     Scenario.head := fun _ => Some 9%Z;
     Scenario.logs_up := Scenario.up; Scenario.meta_up := Scenario.up;
     Scenario.telegram_up := Scenario.up |}.

(** The token contract does not answer, and each rejection is a
    [TypeError] that is not a network failure. *)
Definition brittle : World :=
  let w := Scenario.world Scenario.no_meta in
  {| parseLog := parseLog w; getAddress := getAddress w; formatUnits := formatUnits w;
     contract_symbol := contract_symbol w; contract_decimals := contract_decimals w;
     sendMessage := sendMessage w; getLogs := getLogs w;
     getBlockNumber := getBlockNumber w; getBlock := getBlock w;
     Date_now := Date_now w; type_error := fun _ => true |}.

Definition env : Boot.Env :=
  {[ "RPC_URL" := "https://sepolia.base.org"; "TELEGRAM_TOKEN" := "123:abc";
     "TELEGRAM_CHAT_ID" := "-1001" ]}.

Definition online : Boot.Services :=
  {| Boot.head_reply := fun _ => Some 9%Z; Boot.getMe_reply := fun _ => Some "eurp_bot" |}.

End Cases.

(** ** Calls in flight

    An [async] function runs synchronously up to its first [await]; the rest
    of it runs later, one piece at a time between one [await] and the next,
    and other calls can run in between.  [Pending next after] is a call
    suspended at an [await]: resumed in state [s] it leaves the state
    [after s] and is then [next s]. *)
Inductive Async (A : Type) : Type :=
| Settled (o : Outcome A)
| Pending (next : State → Async A) (after : State → State).
Arguments Settled {A} o.
Arguments Pending {A} next after.

(** A piece of code started in some state: where it stands at its first
    [await], and the state it leaves there. *)
Definition Segment (A : Type) : Type := State → Async A * State.

(** Code without an [await]. *)
Definition now {A} (c : M A) : Segment A :=
  fun s => (Settled (c s).1, (c s).2).

Definition suspend {A} (c : Segment A) : Async A :=
  Pending (fun s => (c s).1) (fun s => (c s).2).

(** [await] on something that settles outside the process (a reply of the
    node or of Telegram, a timer): the caller is suspended, and [c] takes the
    outcome when the caller is resumed. *)
Definition later {A} (c : M A) : Segment A := fun s => (suspend (now c), s).

(** [await] on the promise of an [async] function that was just called: the
    caller is suspended even when the callee had nothing to wait for. *)
Definition await {A} (c : Segment A) : Segment A :=
  fun s =>
    match (c s).1 with
    | Settled o => (suspend (fun s' => (Settled o, s')), (c s).2)
    | Pending next after => (Pending next after, (c s).2)
    end.

(** What follows a call in flight: [k] when it resolves, [h] when it
    rejects. *)
Fixpoint continue {A B} (x : Async A) (k : A → Segment B) (h : JsError → Segment B)
    (s : State) : Async B * State :=
  match x with
  | Settled (Return a) => k a s
  | Settled (Throw e) => h e s
  | Pending next after =>
      (Pending (fun s' => (continue (next s') k h (after s')).1)
               (fun s' => (continue (next s') k h (after s')).2), s)
  end.

Definition abind {A B} (c : Segment A) (k : A → Segment B) : Segment B :=
  fun s => continue (c s).1 k (fun e => now (throw e)) (c s).2.

Definition atry {A} (c : Segment A) (h : JsError → Segment A) : Segment A :=
  fun s => continue (c s).1 (fun a => now (ret a)) h (c s).2.

Notation "'let?' x ':=' c 'in' k" := (abind c (fun x => k))
  (at level 10, x name, c at level 100, k at level 200).

(** A call run to its end with nothing in between. *)
Fixpoint finish {A} (x : Async A) (s : State) : Outcome A * State :=
  match x with
  | Settled o => (o, s)
  | Pending next after => finish (next s) (after s)
  end.

Definition alone {A} (c : Segment A) : M A := fun s => finish (c s).1 (c s).2.

(** The pipeline with its [await]s. *)
Section Overlap.

Context (cfg : Config) (w : World).

Fixpoint pRetry_from_async {A} (fn : Segment A) (o : RetryOptions) (attempt left : nat)
    : Segment A :=
  atry fn
    (fun e =>
       if gives_up e then now (throw e)
       else
         match left with
         | O => now (throw e)
         | S left' =>
             let? _ := later (emit (EvBackoff (backoff o attempt))) in
             pRetry_from_async fn o (S attempt) left'
         end).

Definition pRetry_async {A} (fn : Segment A) (o : RetryOptions) : Segment A :=
  pRetry_from_async fn o 0 (retries o).

Definition getTokenMeta_async (address : string) : Segment TokenMeta :=
  let? address := now (ethers_getAddress w address) in
  let? cache := now (gets tokenCache) in
  match cache !! address with
  | Some meta => now (ret meta)
  | None =>
      let? symbol := await (pRetry_async (later (contract_symbol_call w address)) meta_retry) in
      let? decimals :=
        await (pRetry_async (later (contract_decimals_call w address)) meta_retry) in
      let? time := now (gets (fun s => Date_now w (tick s))) in
      let meta := {| symbol := symbol; decimals := decimals; fetchedAt := Some time |} in
      let? cache := now (gets tokenCache) in
      let? _ := now (set_tokenCache (<[address := meta]> cache)) in
      now (ret meta)
  end.

Definition notify_async (type : Classification) (parsed : TransferArgs) (log : Log)
    : Segment unit :=
  let? tokenAddr := now (ethers_getAddress w (address log)) in
  let? meta :=
    atry (await (getTokenMeta_async tokenAddr))
      (fun err => let? _ := now (emit (EvConsoleWarn err)) in now (ret placeholder)) in
  let amountStr := formatAmount w (value parsed) (decimals meta) in
  let msg := message (type_label type) meta tokenAddr parsed amountStr log in
  let? _ := later (bot_sendMessage w (TELEGRAM_CHAT_ID cfg) msg) in
  let? seen := now (gets lastSeenTx) in
  now (set_lastSeenTx (record_seen (transactionHash log) seen)).

Definition handleLog_async (log : Log) : Segment unit :=
  atry
    (let? seen := now (gets (fun s => JsSet.has (transactionHash log) (lastSeenTx s))) in
     if seen : bool then now (ret tt)
     else
       let? _ := now (emit (EvParseLog log)) in
       let? parsed := now (of_option (parseLog w log) (ParseError log)) in
       match classify (from parsed) (to parsed) with
       | Ignored => now (ret tt)
       | type => notify_async type parsed log
       end)
    (fun err => now (emit (EvConsoleError err))).

(** The subscription listener.  It starts [handleLog] without awaiting it;
    as nothing follows that call in the listener, the listener and the call
    it started are one call in flight here. *)
Definition onLog_async (log : option Log) : Segment unit :=
  match log with
  | None => now (ret tt)
  | Some log =>
      if String.eqb (transactionHash log) EmptyString then now (ret tt)
      else
        let minConfirmations := CONFIRMATIONS cfg in
        let? returned :=
          (if minConfirmations >? 1 then
             atry
               (let? latest := later (provider_getBlockNumber w) in
                if blockNumber log + minConfirmations - 1 >? latest then
                  let? _ := now (setTimeout (GetBlockLater (blockNumber log)) 30000) in
                  now (ret true)
                else now (ret false))
               (fun _ => now (ret false))
           else now (ret false)) in
        if returned : bool then now (ret tt) else handleLog_async log
  end.

(** The polling listener.  Inside a pass [handleLog] is awaited, so the
    logs of one pass are handled one after the other; nothing holds back
    the next pass while this one waits. *)
Definition gate_async (log : Log) : Segment unit :=
  let minConf := CONFIRMATIONS cfg in
  if minConf >? 1 then
    let? latest := later (provider_getBlockNumber w) in
    if blockNumber log + minConf - 1 >? latest then now (ret tt)
    else await (handleLog_async log)
  else await (handleLog_async log).

Fixpoint for_logs_async (logs : list Log) : Segment unit :=
  match logs with
  | [] => now (ret tt)
  | log :: rest => let? _ := gate_async log in for_logs_async rest
  end.

Definition pass_async (height : Z) : Segment unit :=
  let? _ := now (Poll.first_run height) in
  let? last := now (gets lastProcessedBlock) in
  let fromBlock := last + 1 in
  let toBlock := height in
  if (toBlock <? fromBlock)%Z then now (ret tt)
  else
    let filter := {| f_address := TOKEN_ADDRESS cfg; f_topics := [TRANSFER_TOPIC];
                     fromBlock := fromBlock; toBlock := toBlock |} in
    let? logs := later (provider_getLogs w filter) in
    let? _ := for_logs_async logs in
    now (set_lastProcessedBlock height).

Definition onBlock_async (height : Z) : Segment unit :=
  atry (pass_async height) (fun err => now (emit (EvConsoleError err))).

End Overlap.

(** The calls in flight, and the order in which they are resumed:
    [resume i] runs the [i]-th call from its [await] to the next. *)
Definition resume (i : nat) (pool : list (Async unit)) (s : State)
    : list (Async unit) * State :=
  match pool !! i with
  | Some (Pending next after) => (<[i := next s]> pool, after s)
  | _ => (pool, s)
  end.

Fixpoint resume_in_order (order : list nat) (pool : list (Async unit)) (s : State)
    : list (Async unit) * State :=
  match order with
  | [] => (pool, s)
  | i :: rest => resume_in_order rest (resume i pool s).1 (resume i pool s).2
  end.

(** Every order in which two calls can be resumed [n] times in all. *)
Fixpoint orders (n : nat) : list (list nat) :=
  match n with
  | O => [[]]
  | S n' => ((fun o => 0%nat :: o) <$> orders n') ++ ((fun o => 1%nat :: o) <$> orders n')
  end.

(** The calls still in flight run to their end, one after the other. *)
Definition finish_all (pool : list (Async unit)) (s : State) : State :=
  foldl (fun s x => (finish x s).2) s pool.

(** Two logs delivered to the subscription listener one right after the
    other, as the provider emits the logs it has received together; the two
    calls are then resumed in the given order, and whatever is left of them
    after that runs to its end. *)
Definition back_to_back (cfg : Config) (w : World) (l1 l2 : Log) (order : list nat)
    (s : State) : State :=
  let first := onLog_async cfg w (Some l1) s in
  let second := onLog_async cfg w (Some l2) first.2 in
  let resumed := resume_in_order order [first.1; second.1] second.2 in
  finish_all resumed.1 resumed.2.

(** How many logs were decoded and how many messages delivered in such a
    run, and the seen set at its end. *)
Definition tally (cfg : Config) (w : World) (l1 l2 : Log) (order : list nat)
    : nat * nat * list string :=
  let s := back_to_back cfg w l1 l2 order initial in
  (length (decoded (trace s)), length (delivered (trace s)), JsSet.elements (lastSeenTx s)).

(** Two new-block notifications, the second arriving while the pass of the
    first waits for its logs; the two passes are then resumed in the given
    order, and whatever is left of them after that runs to its end. *)
Definition overlapping_passes (cfg : Config) (w : World) (h1 h2 : Z) (order : list nat)
    (s : State) : State :=
  let first := onBlock_async cfg w h1 s in
  let second := onBlock_async cfg w h2 first.2 in
  let resumed := resume_in_order order [first.1; second.1] second.2 in
  finish_all resumed.1 resumed.2.

(** The block cursor before and after each resumption. *)
Fixpoint cursor_history (order : list nat) (pool : list (Async unit)) (s : State) : list Z :=
  lastProcessedBlock s ::
  match order with
  | [] => []
  | i :: rest => cursor_history rest (resume i pool s).1 (resume i pool s).2
  end.

(** The two passes taking turns, [n] resumptions each. *)
Fixpoint in_turns (n : nat) : list nat :=
  match n with
  | O => []
  | S n' => 0%nat :: 1%nat :: in_turns n'
  end.

(** * Properties *)

(** ** The [Set] model *)
Section JsSetFacts.

Implicit Types (d pre rest : JsSet.t) (x y : string).

Lemma elements_app d1 d2 :
  JsSet.elements (d1 ++ d2) = JsSet.elements d1 ++ JsSet.elements d2.
Proof. apply omap_app. Qed.

Lemma elem_of_elements x d : x ∈ JsSet.elements d ↔ Some x ∈ d.
Proof.
  unfold JsSet.elements. rewrite list_elem_of_omap. split.
  - intros (e & He & Hx). simpl in Hx. by subst e.
  - intros H. by exists (Some x).
Qed.

Lemma has_true x d : JsSet.has x d = true ↔ x ∈ JsSet.elements d.
Proof.
  unfold JsSet.has. rewrite bool_decide_eq_true. symmetry. apply elem_of_elements.
Qed.

Lemma has_false x d : JsSet.has x d = false ↔ x ∉ JsSet.elements d.
Proof.
  unfold JsSet.has. rewrite bool_decide_eq_false. by rewrite elem_of_elements.
Qed.

Lemma elements_blank pre : Forall (eq None) pre → JsSet.elements pre = [].
Proof. induction 1 as [|e l <- _ IH]; [done | exact IH]. Qed.

Lemma delete_cons x e d :
  JsSet.delete x (e :: d)
  = (if bool_decide (e = Some x) then None else e) :: JsSet.delete x d.
Proof. reflexivity. Qed.

Lemma delete_absent x d : Some x ∉ d → JsSet.delete x d = d.
Proof.
  induction d as [|e d IH]; [done|]. intros H.
  apply not_elem_of_cons in H as [Hne Hd]. rewrite delete_cons.
  rewrite bool_decide_eq_false_2 by congruence.
  f_equal. by apply IH.
Qed.

Lemma delete_blank x pre : Forall (eq None) pre → JsSet.delete x pre = pre.
Proof.
  intros H. apply delete_absent. intros Hin.
  rewrite Forall_forall in H. by specialize (H _ Hin).
Qed.

Lemma delete_app x d1 d2 :
  JsSet.delete x (d1 ++ d2) = JsSet.delete x d1 ++ JsSet.delete x d2.
Proof. apply fmap_app. Qed.

(** One [it.next()] followed by the [delete] of what it returned: the
    entries before the iterator stay blank and the oldest live entry, if
    any, is gone. *)
Lemma next_delete pre rest :
  Forall (eq None) pre → NoDup (JsSet.elements rest) →
  ∃ pre' rest',
    (match (JsSet.next (pre ++ rest) (length pre)).1 with
     | Some x => JsSet.delete x (pre ++ rest)
     | None => pre ++ rest
     end) = pre' ++ rest'
    ∧ (JsSet.next (pre ++ rest) (length pre)).2 = length pre'
    ∧ Forall (eq None) pre'
    ∧ JsSet.elements rest' = tail (JsSet.elements rest)
    ∧ NoDup (JsSet.elements rest').
Proof.
  unfold JsSet.next. rewrite drop_app_length.
  revert pre. induction rest as [|[x|] rest IH]; intros pre Hpre Hnd.
  - exists pre, []. simpl. repeat split; auto; constructor.
  - simpl in *. apply NoDup_cons in Hnd as [Hx Hnd].
    exists (pre ++ [None]), rest.
    rewrite delete_app, (delete_blank _ _ Hpre), delete_cons.
    rewrite bool_decide_eq_true_2 by done.
    rewrite delete_absent.
    2:{ by rewrite <- elem_of_elements. }
    rewrite <- app_assoc. simpl. rewrite length_app. simpl.
    repeat split; auto; [lia|]. apply Forall_app. split; auto.
  - simpl in Hnd. destruct (IH (pre ++ [None])) as (pre' & rest' & H1 & H2 & H3 & H4 & H5).
    { apply Forall_app. split; auto. }
    { exact Hnd. }
    rewrite length_app in H1, H2. simpl in H1, H2.
    replace (length pre + 1)%nat with (S (length pre)) in H1, H2 by lia.
    rewrite <- !app_assoc in H1. simpl in H1.
    exists pre', rest'. simpl. repeat split; auto.
Qed.

Lemma evict_loop_elements n pre rest :
  Forall (eq None) pre → NoDup (JsSet.elements rest) →
  JsSet.elements (evict_loop n (length pre) (pre ++ rest))
  = drop n (JsSet.elements rest).
Proof.
  revert pre rest. induction n as [|n IH]; intros pre rest Hpre Hnd.
  - simpl. by rewrite elements_app, (elements_blank _ Hpre).
  - destruct (next_delete pre rest Hpre Hnd) as (pre' & rest' & H1 & H2 & H3 & H4 & H5).
    simpl. destruct (JsSet.next (pre ++ rest) (length pre)) as [v j]. simpl in H1, H2.
    rewrite H1, H2, (IH pre' rest' H3 H5), H4.
    destruct (JsSet.elements rest); simpl; [by rewrite drop_nil | done].
Qed.

Lemma elements_add x d :
  JsSet.elements (JsSet.add x d)
  = if JsSet.has x d then JsSet.elements d else JsSet.elements d ++ [x].
Proof.
  unfold JsSet.add. destruct (JsSet.has x d); [done|]. by rewrite elements_app.
Qed.

Lemma NoDup_add x d : NoDup (JsSet.elements d) → NoDup (JsSet.elements (JsSet.add x d)).
Proof.
  intros Hnd. rewrite elements_add. destruct (JsSet.has x d) eqn:Hx; [done|].
  apply has_false in Hx. apply NoDup_app. repeat split; auto.
  - intros y Hy Hy'. apply list_elem_of_singleton in Hy'. by subst y.
  - apply NoDup_singleton.
Qed.

Lemma has_add x d : JsSet.has x (JsSet.add x d) = true.
Proof.
  apply has_true. rewrite elements_add. destruct (JsSet.has x d) eqn:Hx.
  - by apply has_true.
  - apply elem_of_app. right. by apply list_elem_of_singleton.
Qed.

(** What [record_seen] leaves in the set, in terms of live entries. *)
Lemma elements_record_seen h d :
  NoDup (JsSet.elements d) →
  JsSet.elements (record_seen h d)
  = if Nat.ltb ceiling (length (JsSet.elements (JsSet.add h d)))
    then drop batch (JsSet.elements (JsSet.add h d))
    else JsSet.elements (JsSet.add h d).
Proof.
  intros Hnd. unfold record_seen, JsSet.size. cbv zeta.
  destruct (Nat.ltb ceiling _); [|reflexivity].
  apply (evict_loop_elements batch [] (JsSet.add h d)); [constructor|].
  by apply NoDup_add.
Qed.

Lemma NoDup_record_seen h d :
  NoDup (JsSet.elements d) → NoDup (JsSet.elements (record_seen h d)).
Proof.
  intros Hnd. rewrite (elements_record_seen _ _ Hnd).
  pose proof (NoDup_add h d Hnd) as Ha.
  destruct (Nat.ltb ceiling _); [|exact Ha].
  rewrite <- (take_drop batch (JsSet.elements (JsSet.add h d))) in Ha.
  by apply NoDup_app in Ha as (_ & _ & Ha).
Qed.

Lemma length_elements_add h d :
  (length (JsSet.elements (JsSet.add h d)) ≤ S (length (JsSet.elements d)))%nat.
Proof.
  rewrite elements_add. destruct (JsSet.has h d); [lia|].
  rewrite length_app. cbn [length]. lia.
Qed.

Lemma size_record_seen h d :
  NoDup (JsSet.elements d) → (JsSet.size d ≤ ceiling)%nat →
  (JsSet.size (record_seen h d) ≤ ceiling)%nat.
Proof.
  intros Hnd Hsz. unfold JsSet.size in *. rewrite (elements_record_seen _ _ Hnd).
  pose proof (length_elements_add h d) as Hle.
  destruct (Nat.ltb_spec ceiling (length (JsSet.elements (JsSet.add h d)))) as [Hgt|Hok];
    [|exact Hok].
  rewrite length_drop. revert Hsz Hle Hgt. unfold ceiling, batch. lia.
Qed.

(** The newest identifier survives the eviction that its own insertion
    triggers. *)
Lemma has_record_seen h d :
  NoDup (JsSet.elements d) → JsSet.has h d = false →
  JsSet.has h (record_seen h d) = true.
Proof.
  intros Hnd Hnew. apply has_true. rewrite (elements_record_seen _ _ Hnd).
  rewrite elements_add, Hnew.
  destruct (Nat.ltb_spec ceiling (length (JsSet.elements d ++ [h]))) as [Hgt|Hok].
  - rewrite length_app in Hgt. cbn [length] in Hgt.
    rewrite drop_app_le by (revert Hgt; unfold batch, ceiling; lia).
    apply elem_of_app. right. by apply list_elem_of_singleton.
  - apply elem_of_app. right. by apply list_elem_of_singleton.
Qed.

End JsSetFacts.

(** ** What a computation leaves alone *)

Global Instance same_preorder {B} (f : State → B) : PreOrder (same f).
Proof.
  split; [by intros s | intros s1 s2 s3 H12 H23]. unfold same in *. congruence.
Qed.

Global Instance grows_preorder P : PreOrder (grows P).
Proof.
  split.
  - intros s. exists []. by rewrite app_nil_r.
  - intros s1 s2 s3 (t1 & E1 & F1) (t2 & E2 & F2). exists (t1 ++ t2). split.
    + by rewrite E2, E1, app_assoc.
    + by apply Forall_app.
Qed.

Section Preserves.

Context (R : relation State) `{!PreOrder R}.

Lemma preserves_ret {A} (a : A) : preserves R (ret a).
Proof. intros s. simpl. reflexivity. Qed.

Lemma preserves_throw {A} e : preserves R (@throw A e).
Proof. intros s. simpl. reflexivity. Qed.

Lemma preserves_gets {A} (f : State → A) : preserves R (gets f).
Proof. intros s. simpl. reflexivity. Qed.

Lemma preserves_of_option {A} (o : option A) e : preserves R (of_option o e).
Proof. destruct o; [apply preserves_ret | apply preserves_throw]. Qed.

Lemma preserves_bind {A B} (c : M A) (k : A → M B) :
  preserves R c → (∀ a, preserves R (k a)) → preserves R (bind c k).
Proof.
  intros Hc Hk s. unfold bind. specialize (Hc s).
  destruct (c s) as [[a|e] s1]; simpl in *; [|done].
  etransitivity; [exact Hc | apply Hk].
Qed.

Lemma preserves_try_catch {A} (c : M A) (h : JsError → M A) :
  preserves R c → (∀ e, preserves R (h e)) → preserves R (try_catch c h).
Proof.
  intros Hc Hh s. unfold try_catch. specialize (Hc s).
  destruct (c s) as [[a|e] s1]; simpl in *; [done|].
  etransitivity; [exact Hc | apply Hh].
Qed.

Lemma preserves_pRetry_from {A} (fn : M A) o attempt left :
  preserves R fn → (∀ ms, preserves R (emit (EvBackoff ms))) →
  preserves R (pRetry_from fn o attempt left).
Proof.
  intros Hfn Hemit. revert attempt. induction left as [|left IH]; intros attempt; simpl.
  - apply preserves_try_catch; [done | intros e].
    destruct (gives_up e); apply preserves_throw.
  - apply preserves_try_catch; [done | intros e].
    destruct (gives_up e); [apply preserves_throw|].
    apply preserves_bind; [apply Hemit | intros _; apply IH].
Qed.

End Preserves.

(** The primitives and the trace. *)
Lemma emit_grows (P : Event → Prop) e : P e → preserves (grows P) (emit e).
Proof. intros H s. exists [e]. split; [done | by constructor]. Qed.

Lemma ask_grows {A} P (oracle : nat → A) : preserves (grows P) (ask oracle).
Proof. intros s. exists []. simpl. by rewrite app_nil_r. Qed.

Lemma set_tokenCache_grows P m : preserves (grows P) (set_tokenCache m).
Proof. intros s. exists []. simpl. by rewrite app_nil_r. Qed.

Lemma set_lastSeenTx_grows P d : preserves (grows P) (set_lastSeenTx d).
Proof. intros s. exists []. simpl. by rewrite app_nil_r. Qed.

Lemma set_lastProcessedBlock_grows P b : preserves (grows P) (set_lastProcessedBlock b).
Proof. intros s. exists []. simpl. by rewrite app_nil_r. Qed.

Lemma setTimeout_grows P t ms : preserves (grows P) (setTimeout t ms).
Proof. intros s. exists []. simpl. by rewrite app_nil_r. Qed.


(** ** The shared pipeline *)

Lemma quiet_silent tr :
  Forall quiet tr →
  dispatched tr = [] ∧ delivered tr = [] ∧ decoded tr = [] ∧ warned tr = false.
Proof.
  induction 1 as [|e tr He _ (IH1 & IH2 & IH3 & IH4)]; [done|].
  unfold dispatched, delivered, decoded in *.
  destruct e; try done; cbn; rewrite ?IH1, ?IH2, ?IH3, ?IH4; done.
Qed.

Lemma warned_app t1 t2 : warned (t1 ++ t2) = (warned t1 || warned t2)%bool.
Proof. apply existsb_app. Qed.

Lemma since_app s s' tr : trace s' = trace s ++ tr → since s s' = tr.
Proof. intros E. unfold since. rewrite E. apply drop_app_length. Qed.

Lemma since_refl s : since s s = [].
Proof. unfold since. apply drop_all. Qed.

Lemma since_advance n evs s : since s (advance n evs s) = evs.
Proof. by apply since_app. Qed.

Lemma delivered_app t1 t2 : delivered (t1 ++ t2) = delivered t1 ++ delivered t2.
Proof. apply omap_app. Qed.

Lemma dispatched_app t1 t2 : dispatched (t1 ++ t2) = dispatched t1 ++ dispatched t2.
Proof. apply omap_app. Qed.

Lemma decoded_app t1 t2 : decoded (t1 ++ t2) = decoded t1 ++ decoded t2.
Proof. apply omap_app. Qed.

Lemma fetched_app t1 t2 : fetched (t1 ++ t2) = fetched t1 ++ fetched t2.
Proof. apply omap_app. Qed.

Section PipelineFacts.

Context (cfg : Config) (w : World).

Lemma contract_symbol_call_same {B} (f : State → B) a :
  (∀ s n tr, f (mkState (tokenCache s) (lastSeenTx s) (lastProcessedBlock s) (timers s)
                        n tr) = f s) →
  preserves (same f) (contract_symbol_call w a).
Proof.
  intros H s. unfold contract_symbol_call, bind, gets, ask, emit, of_option. simpl.
  destruct (contract_symbol w (tick s) a); simpl; apply H.
Qed.

Lemma contract_decimals_call_same {B} (f : State → B) a :
  (∀ s n tr, f (mkState (tokenCache s) (lastSeenTx s) (lastProcessedBlock s) (timers s)
                        n tr) = f s) →
  preserves (same f) (contract_decimals_call w a).
Proof.
  intros H s. unfold contract_decimals_call, bind, gets, ask, emit, of_option. simpl.
  destruct (contract_decimals w (tick s) a); simpl; apply H.
Qed.

(** The two retried reads touch nothing but [tick] and [trace]. *)
Lemma fetch_same {B} (f : State → B) :
  (∀ s n tr, f (mkState (tokenCache s) (lastSeenTx s) (lastProcessedBlock s) (timers s)
                        n tr) = f s) →
  ∀ a, preserves (same f) (pRetry (contract_symbol_call w a) meta_retry)
       ∧ preserves (same f) (pRetry (contract_decimals_call w a) meta_retry).
Proof.
  intros H a. split; apply preserves_pRetry_from; try typeclasses eauto.
  - by apply contract_symbol_call_same.
  - intros ms s. apply H.
  - by apply contract_decimals_call_same.
  - intros ms s. apply H.
Qed.

Lemma contract_symbol_call_quiet a : preserves (grows quiet) (contract_symbol_call w a).
Proof.
  intros s. unfold contract_symbol_call, bind, gets, ask, emit, of_option. simpl.
  exists [EvSymbol a (contract_symbol w (tick s) a)].
  destruct (contract_symbol w (tick s) a); simpl; (split; [done | by repeat constructor]).
Qed.

Lemma contract_decimals_call_quiet a : preserves (grows quiet) (contract_decimals_call w a).
Proof.
  intros s. unfold contract_decimals_call, bind, gets, ask, emit, of_option. simpl.
  exists [EvDecimals a (contract_decimals w (tick s) a)].
  destruct (contract_decimals w (tick s) a); simpl; (split; [done | by repeat constructor]).
Qed.

Lemma pRetry_from_S {A} (fn : M A) o attempt left :
  pRetry_from fn o attempt (S left)
  = try_catch fn (fun e => if gives_up e then throw e
                           else let! _ := emit (EvBackoff (backoff o attempt)) in
                                pRetry_from fn o (S attempt) left).
Proof. reflexivity. Qed.

Lemma retry_quiet {A} (fn : M A) attempt left :
  preserves (grows quiet) fn →
  preserves (grows quiet) (pRetry_from fn meta_retry attempt left).
Proof.
  intros Hfn. apply preserves_pRetry_from; [typeclasses eauto | exact Hfn |].
  intros ms. by apply emit_grows.
Qed.

Lemma fetch_quiet a :
  preserves (grows quiet) (pRetry (contract_symbol_call w a) meta_retry)
  ∧ preserves (grows quiet) (pRetry (contract_decimals_call w a) meta_retry).
Proof.
  split; apply retry_quiet;
    [apply contract_symbol_call_quiet | apply contract_decimals_call_quiet].
Qed.

(** [getTokenMeta] never touches the seen set, the cursor or the timers. *)
Lemma getTokenMeta_same {B} (f : State → B) a :
  (∀ s m n tr, f (mkState m (lastSeenTx s) (lastProcessedBlock s) (timers s) n tr) = f s) →
  preserves (same f) (getTokenMeta w a).
Proof.
  intros H.
  assert (∀ s n tr, f (mkState (tokenCache s) (lastSeenTx s) (lastProcessedBlock s)
                               (timers s) n tr) = f s) as H' by (intros; apply H).
  unfold getTokenMeta, ethers_getAddress.
  apply preserves_bind; [typeclasses eauto | apply preserves_of_option; typeclasses eauto |].
  intros a'. apply preserves_bind; [typeclasses eauto | apply preserves_gets; typeclasses eauto|].
  intros cache. destruct (cache !! a'); [apply preserves_ret; typeclasses eauto|].
  apply preserves_bind; [typeclasses eauto | by apply fetch_same |].
  intros sym. apply preserves_bind; [typeclasses eauto | by apply fetch_same |].
  intros dec. apply preserves_bind; [typeclasses eauto | apply preserves_gets; typeclasses eauto|].
  intros now. apply preserves_bind; [typeclasses eauto | apply preserves_gets; typeclasses eauto|].
  intros cache'. apply preserves_bind; [typeclasses eauto | | intros; apply preserves_ret; typeclasses eauto].
  intros s. apply H.
Qed.

Lemma getTokenMeta_quiet a : preserves (grows quiet) (getTokenMeta w a).
Proof.
  unfold getTokenMeta, ethers_getAddress.
  apply preserves_bind; [typeclasses eauto | apply preserves_of_option; typeclasses eauto |].
  intros a'. apply preserves_bind; [typeclasses eauto | apply preserves_gets; typeclasses eauto|].
  intros cache. destruct (cache !! a'); [apply preserves_ret; typeclasses eauto|].
  apply preserves_bind; [typeclasses eauto | apply fetch_quiet |].
  intros sym. apply preserves_bind; [typeclasses eauto | apply fetch_quiet |].
  intros dec. apply preserves_bind; [typeclasses eauto | apply preserves_gets; typeclasses eauto|].
  intros now. apply preserves_bind; [typeclasses eauto | apply preserves_gets; typeclasses eauto|].
  intros cache'. apply preserves_bind;
    [typeclasses eauto | apply set_tokenCache_grows | intros; apply preserves_ret; typeclasses eauto].
Qed.

(** A lookup that throws has not written the cache. *)
Lemma getTokenMeta_throw_cache a s e s' :
  getTokenMeta w a s = (Throw e, s') → tokenCache s' = tokenCache s.
Proof.
  unfold getTokenMeta, ethers_getAddress, bind at 1.
  destruct (getAddress w a) as [a'|]; simpl; [|by intros [= _ <-]].
  unfold bind at 1. simpl. destruct (tokenCache s !! a'); [done|].
  destruct (fetch_same tokenCache (fun _ _ _ => eq_refl) a') as [Hsym Hdec].
  unfold bind at 1. specialize (Hsym s).
  destruct (pRetry (contract_symbol_call w a') meta_retry s) as [[sym|e1] s1];
    simpl in Hsym; [|by intros [= _ <-]].
  unfold bind at 1. specialize (Hdec s1).
  destruct (pRetry (contract_decimals_call w a') meta_retry s1) as [[dec|e2] s2];
    simpl in Hdec; [|intros [= _ <-]; unfold same in *; congruence].
  done.
Qed.




(** The primitives, run. *)
Lemma emit_run e s : emit e s = (Return tt, advance 0 [e] s).
Proof. reflexivity. Qed.

Lemma provider_getBlockNumber_run s :
  provider_getBlockNumber w s
  = (match getBlockNumber w (tick s) with
     | Some b => Return b
     | None => Throw (RpcError "getBlockNumber")
     end, advance 1 [EvGetBlockNumber (getBlockNumber w (tick s))] s).
Proof.
  unfold provider_getBlockNumber, bind, ask, emit, of_option. simpl.
  by destruct (getBlockNumber w (tick s)).
Qed.

Lemma provider_getLogs_run f s :
  provider_getLogs w f s
  = (match getLogs w (tick s) f with
     | Some logs => Return logs
     | None => Throw (RpcError "getLogs")
     end, advance 1 [EvGetLogs f (bool_decide (is_Some (getLogs w (tick s) f)))] s).
Proof.
  unfold provider_getLogs, bind, ask, emit, of_option. simpl.
  by destruct (getLogs w (tick s) f).
Qed.

Lemma contract_symbol_call_run a s :
  contract_symbol_call w a s
  = (match contract_symbol w (tick s) a with
     | Some v => Return v
     | None => Throw (rejection (type_error w (tick s)) "symbol")
     end, advance 1 [EvSymbol a (contract_symbol w (tick s) a)] s).
Proof.
  unfold contract_symbol_call, bind, gets, ask, emit, of_option. simpl.
  by destruct (contract_symbol w (tick s) a).
Qed.

Lemma contract_decimals_call_run a s :
  contract_decimals_call w a s
  = (match contract_decimals w (tick s) a with
     | Some v => Return v
     | None => Throw (rejection (type_error w (tick s)) "decimals")
     end, advance 1 [EvDecimals a (contract_decimals w (tick s) a)] s).
Proof.
  unfold contract_decimals_call, bind, gets, ask, emit, of_option. simpl.
  by destruct (contract_decimals w (tick s) a).
Qed.

Lemma bot_sendMessage_run chat msg s :
  bot_sendMessage w chat msg s
  = (if sendMessage w (tick s) chat msg then Return tt else Throw TelegramError,
     advance 1 [EvSendMessage chat msg (sendMessage w (tick s) chat msg)] s).
Proof.
  unfold bot_sendMessage, bind, ask, emit. simpl.
  by destruct (sendMessage w (tick s) chat msg).
Qed.


(** The lookup with its fallback always yields metadata, and says nothing
    to the channel. *)
Lemma meta_or_placeholder_run tokenAddr s :
  ∃ meta s1,
    meta_or_placeholder w tokenAddr s = (Return meta, s1)
    ∧ lastSeenTx s1 = lastSeenTx s
    ∧ ((getTokenMeta w tokenAddr s = (Return meta, s1) ∧ grows quiet s s1)
       ∨ ∃ e s0, getTokenMeta w tokenAddr s = (Throw e, s0) ∧ grows quiet s s0
                 ∧ meta = placeholder ∧ s1 = advance 0 [EvConsoleWarn e] s0).
Proof.
  pose proof (getTokenMeta_same lastSeenTx tokenAddr (fun _ _ _ _ => eq_refl) s) as Hseen.
  pose proof (getTokenMeta_quiet tokenAddr s) as Hq.
  unfold meta_or_placeholder, try_catch.
  destruct (getTokenMeta w tokenAddr s) as [[meta|e] s0]; simpl in *.
  - exists meta, s0. auto.
  - exists placeholder, (advance 0 [EvConsoleWarn e] s0). repeat split; auto.
    right. by exists e, s0.
Qed.

Lemma notify_run c parsed log tokenAddr s :
  getAddress w (address log) = Some tokenAddr →
  ∃ meta s1,
    meta_or_placeholder w tokenAddr s = (Return meta, s1)
    ∧ let msg := message (type_label c) meta tokenAddr parsed
                   (formatAmount w (value parsed) (decimals meta)) log in
      let ok := sendMessage w (tick s1) (TELEGRAM_CHAT_ID cfg) msg in
      notify cfg w c parsed log s
      = if ok
        then (Return tt,
              with_seen (record_seen (transactionHash log) (lastSeenTx s1))
                (advance 1 [EvSendMessage (TELEGRAM_CHAT_ID cfg) msg true] s1))
        else (Throw TelegramError,
              advance 1 [EvSendMessage (TELEGRAM_CHAT_ID cfg) msg false] s1).
Proof.
  intros Ha. destruct (meta_or_placeholder_run tokenAddr s) as (meta & s1 & Hm & _).
  exists meta, s1. split; [exact Hm|]. simpl.
  unfold notify, ethers_getAddress, bind at 1. rewrite Ha. simpl.
  unfold bind at 1. fold (meta_or_placeholder w tokenAddr). rewrite Hm.
  unfold bind at 1. rewrite bot_sendMessage_run.
  by destruct (sendMessage w (tick s1) (TELEGRAM_CHAT_ID cfg) _).
Qed.

Lemma notify_bad_address c parsed log s :
  getAddress w (address log) = None →
  notify cfg w c parsed log s = (Throw (InvalidAddress (address log)), s).
Proof. intros Ha. unfold notify, ethers_getAddress, bind at 1. by rewrite Ha. Qed.

Lemma handleLog_seen log s :
  JsSet.has (transactionHash log) (lastSeenTx s) = true →
  handleLog cfg w log s = (Return tt, s).
Proof. intros H. unfold handleLog, try_catch, bind, gets. simpl. by rewrite H. Qed.

Lemma handleLog_unseen log s :
  JsSet.has (transactionHash log) (lastSeenTx s) = false →
  handleLog cfg w log s
  = match parseLog w log with
    | None => (Return tt, advance 0 [EvParseLog log; EvConsoleError (ParseError log)] s)
    | Some parsed =>
        match classify (from parsed) (to parsed) with
        | Ignored => (Return tt, advance 0 [EvParseLog log] s)
        | c => try_catch (notify cfg w c parsed log)
                 (fun err => emit (EvConsoleError err))
                 (advance 0 [EvParseLog log] s)
        end
    end.
Proof.
  intros H. unfold handleLog. unfold try_catch at 1, bind at 1, gets. simpl. rewrite H.
  unfold bind at 1. rewrite emit_run. unfold bind at 1, of_option.
  destruct (parseLog w log) as [parsed|]; simpl.
  - destruct (classify (from parsed) (to parsed)); try reflexivity.
  - rewrite emit_run. unfold advance. simpl. by rewrite <- app_assoc.
Qed.

End PipelineFacts.

(** ** [handleLog], case by case *)
Section HandleLogFacts.

Context (cfg : Config) (w : World).

Lemma notify_caught c parsed log s :
  JsSet.has (transactionHash log) (lastSeenTx s) = false →
  parseLog w log = Some parsed →
  classify (from parsed) (to parsed) = c → c ≠ Ignored →
  ∃ s', try_catch (notify cfg w c parsed log) (fun err => emit (EvConsoleError err))
          (advance 0 [EvParseLog log] s) = (Return tt, s')
        ∧ handled cfg w log s s'.
Proof.
  intros Hseen Hparse Hc Hno. unfold try_catch.
  destruct (getAddress w (address log)) as [tokenAddr|] eqn:Ha.
  - destruct (notify_run cfg w c parsed log tokenAddr (advance 0 [EvParseLog log] s) Ha)
      as (meta & s1 & Hm & Hn).
    cbv zeta in Hn. rewrite Hn. clear Hn.
    destruct (sendMessage w (tick s1) (TELEGRAM_CHAT_ID cfg) _) eqn:Hsend.
    + eexists. split; [reflexivity|].
      eapply handled_notified; eauto; rewrite Hc; done.
    + rewrite emit_run. eexists. split; [reflexivity|].
      match goal with
      | |- handled _ _ _ _ (advance 0 [?e2] (advance 1 [?e1] s1)) =>
          replace (advance 0 [e2] (advance 1 [e1] s1)) with (advance 1 [e1; e2] s1)
            by (unfold advance; simpl; by rewrite <- app_assoc)
      end.
      eapply handled_undelivered; eauto; rewrite Hc; done.
  - rewrite (notify_bad_address _ _ _ _ _ _ Ha), emit_run. eexists. split; [reflexivity|].
    replace (advance 0 [EvConsoleError (InvalidAddress (address log))]
               (advance 0 [EvParseLog log] s))
      with (advance 0 [EvParseLog log; EvConsoleError (InvalidAddress (address log))] s)
      by (unfold advance; simpl; by rewrite <- app_assoc).
    eapply handled_bad_address; eauto. by rewrite Hc.
Qed.

(** [handleLog] never throws, and ends in one of the six ways of
    [handled]. *)
Lemma handleLog_handled log s :
  ∃ s', handleLog cfg w log s = (Return tt, s') ∧ handled cfg w log s s'.
Proof.
  destruct (JsSet.has (transactionHash log) (lastSeenTx s)) eqn:Hseen.
  { exists s. split; [by apply handleLog_seen | by constructor]. }
  rewrite (handleLog_unseen _ _ _ _ Hseen).
  destruct (parseLog w log) as [parsed|] eqn:Hparse.
  2:{ eexists. split; [reflexivity | by constructor]. }
  destruct (classify (from parsed) (to parsed)) eqn:Hc.
  - by apply notify_caught.
  - by apply notify_caught.
  - eexists. split; [reflexivity | by econstructor].
Qed.

Lemma handleLog_returns log s : (handleLog cfg w log s).1 = Return tt.
Proof. destruct (handleLog_handled log s) as (s' & -> & _). done. Qed.

(** What the lookup with its fallback adds to the trace. *)
Lemma meta_or_placeholder_trace tokenAddr s meta s1 :
  meta_or_placeholder w tokenAddr s = (Return meta, s1) →
  lastSeenTx s1 = lastSeenTx s
  ∧ ∃ tr, trace s1 = trace s ++ tr
          ∧ dispatched tr = [] ∧ delivered tr = [] ∧ decoded tr = []
          ∧ (warned tr = true ↔ throws (getTokenMeta w tokenAddr) s)
          ∧ (warned tr = true → meta = placeholder ∧ tokenCache s1 = tokenCache s).
Proof.
  intros Hm. destruct (meta_or_placeholder_run w tokenAddr s) as (m' & s1' & Hm' & Hseen & Hc).
  rewrite Hm in Hm'. injection Hm' as <- <-. split; [exact Hseen|].
  destruct Hc as [[Hret (tr & E & Hq)] | (e & s0 & Hthrow & (tr & E & Hq) & -> & ->)].
  - exists tr. destruct (quiet_silent tr Hq) as (H1 & H2 & H3 & H4).
    unfold throws. rewrite Hret, H4. simpl.
    split; [done|]. do 3 (split; [done|]). split; [split|]; intros; done.
  - exists (tr ++ [EvConsoleWarn e]). destruct (quiet_silent tr Hq) as (H1 & H2 & H3 & H4).
    rewrite dispatched_app, delivered_app, decoded_app, warned_app, H1, H2, H3, H4.
    unfold throws. rewrite Hthrow. simpl. rewrite E, app_assoc.
    split; [done|]. do 3 (split; [done|]). split; [split; intros; by rewrite ?orb_true_r|].
    intros _. split; [done|]. by apply getTokenMeta_throw_cache in Hthrow.
Qed.

(** The seen set after [handleLog]: untouched, or extended by this
    transaction right after the channel accepted the message. *)
Lemma handled_seen_set log s s' :
  handled cfg w log s s' →
  (lastSeenTx s' = lastSeenTx s ∧ delivered (since s s') = [])
  ∨ (lastSeenTx s' = record_seen (transactionHash log) (lastSeenTx s)
     ∧ JsSet.has (transactionHash log) (lastSeenTx s) = false
     ∧ ∃ tr msg, since s s' = tr ++ [EvSendMessage (TELEGRAM_CHAT_ID cfg) msg true]
                 ∧ dispatched tr = []).
Proof.
  intros H. inversion H as [Hs | Hs Hp | parsed Hs Hp Hc | parsed Hs Hp Hc Ha
                            | parsed a meta s1 msg Hs Hp Hc Ha Hm Hmsg Hsend
                            | parsed a meta s1 msg Hs Hp Hc Ha Hm Hmsg Hsend]; subst.
  - left. by rewrite since_refl.
  - left. by rewrite since_advance.
  - left. by rewrite since_advance.
  - left. by rewrite since_advance.
  - right. apply meta_or_placeholder_trace in Hm as (Hseen & tr & E & H1 & H2 & H3 & _).
    simpl in *. rewrite Hseen. repeat split; auto.
    eexists (EvParseLog log :: tr), _. split.
    + apply since_app. simpl. rewrite E. simpl. rewrite <- !app_assoc. reflexivity.
    + unfold dispatched in *. simpl. exact H1.
  - left. apply meta_or_placeholder_trace in Hm as (Hseen & tr & E & H1 & H2 & H3 & _).
    simpl in *. split; [done|].
    erewrite since_app.
    2:{ simpl. rewrite E. simpl. rewrite <- !app_assoc. reflexivity. }
    rewrite !delivered_app, H2. reflexivity.
Qed.

Lemma handleLog_seen_wf log s : seen_wf s → seen_wf (handleLog cfg w log s).2.
Proof.
  intros Hwf. destruct (handleLog_handled log s) as (s' & -> & H). simpl.
  unfold seen_wf in *.
  destruct (handled_seen_set _ _ _ H) as [[-> _] | (-> & _)]; [done|].
  by apply NoDup_record_seen.
Qed.

Lemma handle_each_seen h later s :
  JsSet.has h (lastSeenTx s) = true →
  Forall (fun l => transactionHash l = h) later →
  handle_each cfg w later s = s.
Proof.
  intros Hs. induction 1 as [|l later Hl _ IH]; [done|].
  simpl. rewrite handleLog_seen by (by rewrite Hl). exact IH.
Qed.

(** When [handleLog] gets as far as the channel: the one message it hands
    over, and where its metadata came from. *)
Lemma handled_dispatch log s s' parsed tokenAddr :
  handled cfg w log s s' →
  JsSet.has (transactionHash log) (lastSeenTx s) = false →
  parseLog w log = Some parsed →
  classify (from parsed) (to parsed) ≠ Ignored →
  getAddress w (address log) = Some tokenAddr →
  ∃ meta,
    dispatched (since s s')
    = [message (type_label (classify (from parsed) (to parsed))) meta tokenAddr parsed
         (formatAmount w (value parsed) (decimals meta)) log]
    ∧ decoded (since s s') = [log]
    ∧ (warned (since s s') = true
       ↔ throws (getTokenMeta w tokenAddr) (advance 0 [EvParseLog log] s))
    ∧ (warned (since s s') = true → meta = placeholder ∧ tokenCache s' = tokenCache s).
Proof.
  intros H Hseen Hparse Hc Ha.
  inversion H as [Hs | Hs Hp | parsed' Hs Hp Hc' | parsed' Hs Hp Hc' Ha'
                  | parsed' a meta s1 msg Hs Hp Hc' Ha' Hm Hmsg Hsend
                  | parsed' a meta s1 msg Hs Hp Hc' Ha' Hm Hmsg Hsend]; subst;
    try congruence.
  all: assert (parsed' = parsed) as -> by congruence.
  all: assert (a = tokenAddr) as -> by congruence.
  all: apply meta_or_placeholder_trace in Hm as (_ & tr & E & H1 & H2 & H3 & H4 & H5).
  all: simpl in E; exists meta.
  all: erewrite since_app by (simpl; rewrite E; simpl; rewrite <- !app_assoc; reflexivity).
  all: rewrite !dispatched_app, !decoded_app, !warned_app, H1, H3; simpl.
  all: rewrite ?orb_false_r; repeat split; try tauto.
  all: intros Hw; by destruct (H5 Hw).
Qed.


Lemma getTokenMeta_hit a a' meta s :
  getAddress w a = Some a' → tokenCache s !! a' = Some meta →
  getTokenMeta w a s = (Return meta, s).
Proof.
  intros Ha Hhit. unfold getTokenMeta, ethers_getAddress, bind at 1. rewrite Ha. simpl.
  unfold bind at 1. simpl. by rewrite Hhit.
Qed.

Lemma dispatched_elem chat msg ok tr :
  EvSendMessage chat msg ok ∈ tr → msg ∈ dispatched tr.
Proof.
  intros H. unfold dispatched. apply list_elem_of_omap.
  by exists (EvSendMessage chat msg ok).
Qed.

End HandleLogFacts.

(** ** Classification *)

(** C2, as the code has it: a transfer is a Mint exactly when its sender is
    the zero address (whatever the recipient), a Burn exactly when its
    recipient is the zero address and its sender is not, and Ignored exactly
    when neither is; this is the specified classification whenever the two
    addresses are not both zero.  An Ignored log is decoded and dropped:
    no message, no change to the caches. *)
Theorem classification_by_sender_first (sender recipient : string) :
  (classify sender recipient = Mint ↔ is_zero sender = true)
  ∧ (classify sender recipient = Burn ↔ is_zero sender = false ∧ is_zero recipient = true)
  ∧ (classify sender recipient = Ignored
     ↔ is_zero sender = false ∧ is_zero recipient = false)
  ∧ ((is_zero sender && is_zero recipient)%bool = false →
     classify sender recipient = spec_classify sender recipient)
  ∧ ∀ cfg w log s parsed,
      parseLog w log = Some parsed →
      from parsed = sender → to parsed = recipient →
      classify sender recipient = Ignored →
      handleLog cfg w log s = (Return tt, s)
      ∨ handleLog cfg w log s = (Return tt, advance 0 [EvParseLog log] s).
Proof.
  unfold classify, spec_classify.
  destruct (is_zero sender) eqn:Hf, (is_zero recipient) eqn:Ht; simpl.
  all: repeat split; try (intros; (discriminate || tauto || done)).
  all: try (intros [? ?]; discriminate).
  all: intros cfg w log s parsed Hp <- <- _.
  all: destruct (JsSet.has (transactionHash log) (lastSeenTx s)) eqn:Hs;
       [left; by apply handleLog_seen | right].
  all: rewrite (handleLog_unseen _ _ _ _ Hs), Hp; unfold classify; by rewrite Hf, Ht.
Qed.

Lemma classification_by_sender_first_witness :
  classify Scenario.alice Scenario.token = Ignored
  ∧ (handleLog (Scenario.cfg 1) (Scenario.world Scenario.calm) Scenario.plain initial
     = (Return tt, initial)
     ∨ handleLog (Scenario.cfg 1) (Scenario.world Scenario.calm) Scenario.plain initial
       = (Return tt, advance 0 [EvParseLog Scenario.plain] initial)).
Proof.
  split; [reflexivity|].
  apply (proj2 (proj2 (proj2 (proj2
           (classification_by_sender_first Scenario.alice Scenario.token))))
           (Scenario.cfg 1) (Scenario.world Scenario.calm) Scenario.plain initial
           (mkArgs Scenario.alice Scenario.token 1000000000000000000));
    reflexivity.
Defined.

(** C2 as stated fails when sender and recipient are both the zero
    address: the code classifies the transfer as a Mint, where the claim
    says Ignored, and sends a message for it. *)
Lemma double_zero_is_a_mint :
  classify ZERO ZERO = Mint
  ∧ spec_classify ZERO ZERO = Ignored
  ∧ classify ZERO ZERO ≠ spec_classify ZERO ZERO
  ∧ length (delivered (trace (handleLog (Scenario.cfg 1) (Scenario.world Scenario.calm)
                                Scenario.void initial).2)) = 1%nat.
Proof. vm_compute. repeat split; discriminate. Qed.

(** ** De-duplication around the dispatch *)

(** C4. The seen set is consulted before anything else: a log whose
    transaction is recorded leaves the state as it is (no decode, no
    message), so a decode implies the transaction was not recorded.  The
    set changes only by recording this transaction, and then the last thing
    that happened before was the channel accepting the message; when no
    message was accepted, in particular when the dispatch failed, the set
    is unchanged. *)
Theorem seen_checked_first_recorded_last (cfg : Config) (w : World) (log : Log) (s : State) :
  let s' := (handleLog cfg w log s).2 in
  (JsSet.has (transactionHash log) (lastSeenTx s) = true →
   handleLog cfg w log s = (Return tt, s))
  ∧ (decoded (since s s') ≠ [] →
     JsSet.has (transactionHash log) (lastSeenTx s) = false)
  ∧ (lastSeenTx s' ≠ lastSeenTx s →
     lastSeenTx s' = record_seen (transactionHash log) (lastSeenTx s)
     ∧ ∃ tr msg, since s s' = tr ++ [EvSendMessage (TELEGRAM_CHAT_ID cfg) msg true]
                 ∧ dispatched tr = [])
  ∧ (delivered (since s s') = [] → lastSeenTx s' = lastSeenTx s)
  ∧ (∀ chat msg, EvSendMessage chat msg false ∈ since s s' →
     lastSeenTx s' = lastSeenTx s).
Proof.
  cbv zeta. split; [apply handleLog_seen|].
  split.
  { destruct (JsSet.has (transactionHash log) (lastSeenTx s)) eqn:Hs; [|done].
    rewrite (handleLog_seen _ _ _ _ Hs). simpl. by rewrite since_refl. }
  destruct (handleLog_handled cfg w log s) as (s' & -> & H). simpl.
  destruct (handled_seen_set _ _ _ _ _ H) as [[Hsame Hd] | (Hrec & Hnew & tr & msg & E & Hq)].
  - repeat split; done.
  - split; [intros _; split; [done | by exists tr, msg]|]. split.
    + rewrite E, delivered_app. simpl. intros Hd. by destruct (delivered tr).
    + intros chat m Hin. rewrite E in Hin. apply elem_of_app in Hin as [Hin|Hin].
      * apply dispatched_elem in Hin. rewrite Hq in Hin. by apply elem_of_nil in Hin.
      * apply list_elem_of_singleton in Hin. discriminate.
Qed.

Lemma seen_checked_first_recorded_last_witness :
  let cfg := Scenario.cfg 1 in
  let quiet_world := Scenario.world Scenario.no_telegram in
  let w := Scenario.world Scenario.calm in
  let s1 := (handleLog cfg w Scenario.twin_a initial).2 in
  handleLog cfg w Scenario.twin_b s1 = (Return tt, s1)
  ∧ lastSeenTx (handleLog cfg quiet_world Scenario.twin_a initial).2 = lastSeenTx initial
  ∧ lastSeenTx s1 = record_seen "0x7717" JsSet.empty.
Proof.
  cbv zeta. split; [|split].
  - apply (proj1 (seen_checked_first_recorded_last (Scenario.cfg 1)
                    (Scenario.world Scenario.calm) Scenario.twin_b _)).
    vm_compute. reflexivity.
  - apply (proj1 (proj2 (proj2 (proj2 (seen_checked_first_recorded_last (Scenario.cfg 1)
                    (Scenario.world Scenario.no_telegram) Scenario.twin_a initial))))).
    vm_compute. reflexivity.
  - apply (proj1 (proj2 (proj2 (seen_checked_first_recorded_last (Scenario.cfg 1)
                    (Scenario.world Scenario.calm) Scenario.twin_a initial)))).
    vm_compute. discriminate.
Defined.

(** Logs handled one after the other, each call of [handleLog] complete
    before the next starts.  The seen set is keyed by the transaction
    identifier alone: once the message for one log of a transaction has been
    accepted by the channel, the identifier is in the set, and every log
    handled after that call with the same identifier, whatever its topics
    and data, leaves the state untouched: it is not decoded and nothing is
    dispatched for it. *)
Lemma one_notification_per_transaction
    (cfg : Config) (w : World) (first : Log) (later : list Log) (s : State) :
  seen_wf s →
  length (delivered (since s (handleLog cfg w first s).2)) = 1%nat →
  Forall (fun l => transactionHash l = transactionHash first) later →
  let s1 := (handleLog cfg w first s).2 in
  JsSet.has (transactionHash first) (lastSeenTx s1) = true
  ∧ handle_each cfg w later s1 = s1
  ∧ decoded (since s1 (handle_each cfg w later s1)) = []
  ∧ dispatched (since s1 (handle_each cfg w later s1)) = []
  ∧ length (delivered (since s (handle_each cfg w (first :: later) s))) = 1%nat.
Proof.
  intros Hwf Hone Hlater. cbv zeta.
  assert (JsSet.has (transactionHash first) (lastSeenTx (handleLog cfg w first s).2) = true)
    as Hin.
  { destruct (handleLog_handled cfg w first s) as (s' & E & H). rewrite E in *. simpl in *.
    destruct (handled_seen_set _ _ _ _ _ H) as [[_ Hd] | (-> & Hnew & _)].
    - rewrite Hd in Hone. discriminate.
    - by apply has_record_seen. }
  pose proof (handle_each_seen cfg w _ later _ Hin Hlater) as Hskip.
  simpl. rewrite Hskip, since_refl. done.
Qed.

Lemma one_notification_per_transaction_witness :
  let cfg := Scenario.cfg 1 in
  let w := Scenario.world Scenario.calm in
  let s1 := (handleLog cfg w Scenario.twin_a initial).2 in
  Scenario.twin_a ≠ Scenario.twin_b
  ∧ handle_each cfg w [Scenario.twin_b] s1 = s1
  ∧ length (delivered (since initial
              (handle_each cfg w [Scenario.twin_a; Scenario.twin_b] initial))) = 1%nat.
Proof.
  cbv zeta. split; [discriminate|].
  assert (seen_wf initial) as Hwf by constructor.
  destruct (one_notification_per_transaction (Scenario.cfg 1) (Scenario.world Scenario.calm)
              Scenario.twin_a [Scenario.twin_b] initial Hwf)
    as (_ & H2 & _ & _ & H5).
  - vm_compute. reflexivity.
  - repeat constructor.
  - split; [exact H2 | exact H5].
Defined.

(** ** Token metadata *)

Lemma backoff_schedule : backoff meta_retry 0 = 1000 ∧ backoff meta_retry 1 = 1500.
Proof. split; reflexivity. Qed.

Lemma advance_advance n1 n2 e1 e2 s :
  advance n2 e2 (advance n1 e1 s) = advance (n2 + n1) (e1 ++ e2) s.
Proof.
  unfold advance. simpl. f_equal; [lia | by rewrite <- app_assoc].
Qed.

Lemma gives_up_rejection fatal method : gives_up (rejection fatal method) = fatal.
Proof. by destruct fatal. Qed.

Section Retry.

Context (w : World).

Lemma retry_symbol a s :
  pRetry (contract_symbol_call w a) meta_retry s
  = three_attempts (fun t => contract_symbol w t a) (type_error w) (EvSymbol a) "symbol" s.
Proof.
  unfold pRetry, three_attempts. change (retries meta_retry) with 2%nat.
  rewrite !pRetry_from_S. destruct backoff_schedule as [-> ->].
  unfold try_catch at 1. rewrite contract_symbol_call_run.
  destruct (contract_symbol w (tick s) a) as [v|] eqn:H0; [done|].
  rewrite gives_up_rejection. destruct (type_error w (tick s)); [done|].
  unfold bind at 1. rewrite emit_run. unfold try_catch at 1.
  rewrite contract_symbol_call_run, !advance_advance. simpl.
  destruct (contract_symbol w (S (tick s)) a) as [v|] eqn:H1; [done|].
  rewrite gives_up_rejection. destruct (type_error w (S (tick s))); [done|].
  unfold bind at 1. rewrite emit_run. simpl. unfold try_catch.
  rewrite contract_symbol_call_run, !advance_advance. simpl.
  destruct (contract_symbol w (S (S (tick s))) a); [done|].
  rewrite gives_up_rejection. by destruct (type_error w (S (S (tick s)))).
Qed.

Lemma retry_decimals a s :
  pRetry (contract_decimals_call w a) meta_retry s
  = three_attempts (fun t => contract_decimals w t a) (type_error w) (EvDecimals a)
      "decimals" s.
Proof.
  unfold pRetry, three_attempts. change (retries meta_retry) with 2%nat.
  rewrite !pRetry_from_S. destruct backoff_schedule as [-> ->].
  unfold try_catch at 1. rewrite contract_decimals_call_run.
  destruct (contract_decimals w (tick s) a) as [v|] eqn:H0; [done|].
  rewrite gives_up_rejection. destruct (type_error w (tick s)); [done|].
  unfold bind at 1. rewrite emit_run. unfold try_catch at 1.
  rewrite contract_decimals_call_run, !advance_advance. simpl.
  destruct (contract_decimals w (S (tick s)) a) as [v|] eqn:H1; [done|].
  rewrite gives_up_rejection. destruct (type_error w (S (tick s))); [done|].
  unfold bind at 1. rewrite emit_run. simpl. unfold try_catch.
  rewrite contract_decimals_call_run, !advance_advance. simpl.
  destruct (contract_decimals w (S (S (tick s))) a); [done|].
  rewrite gives_up_rejection. by destruct (type_error w (S (S (tick s)))).
Qed.

(** What [getTokenMeta] does on a cache miss, attempts included. *)
Lemma getTokenMeta_miss a a' s :
  getAddress w a = Some a' → tokenCache s !! a' = None →
  getTokenMeta w a s = fetch_and_cache w a' s.
Proof.
  intros Ha Hmiss. unfold getTokenMeta, fetch_and_cache, ethers_getAddress, bind at 1.
  rewrite Ha. simpl. unfold bind at 1. simpl. rewrite Hmiss.
  unfold bind at 1. rewrite retry_symbol.
  destruct (three_attempts _ _ _ "symbol" s) as [[sym|e1] s1]; [|done].
  unfold bind at 1. rewrite retry_decimals.
  destruct (three_attempts _ _ _ "decimals" s1) as [[dec|e2] s2]; done.
Qed.

End Retry.

(** C8. On a cache miss [getTokenMeta] reads [symbol()] and then
    [decimals()], each through [pRetry] with two retries and factor 1.5: at
    most three attempts per read, ended by the first success or by a
    rejection that is not retried, with pauses of 1000 and 1500 milliseconds
    after the first and second failure; only when both reads succeed is the
    result returned and cached.  When the lookup for a mint or burn log
    throws, whatever the reason, exactly one message is still handed to the
    channel, built from the placeholder symbol TOKEN and 18 decimals. *)
Theorem metadata_retry_then_placeholder (cfg : Config) (w : World) :
  (retries meta_retry = 2%nat ∧ (factor meta_retry == 15 # 10)%Q)
  ∧ (∀ a a' s,
       getAddress w a = Some a' → tokenCache s !! a' = None →
       getTokenMeta w a s = fetch_and_cache w a' s)
  ∧ (symbol placeholder = "TOKEN" ∧ decimals placeholder = 18)
  ∧ ∀ log s parsed tokenAddr,
      JsSet.has (transactionHash log) (lastSeenTx s) = false →
      parseLog w log = Some parsed →
      classify (from parsed) (to parsed) ≠ Ignored →
      getAddress w (address log) = Some tokenAddr →
      throws (getTokenMeta w tokenAddr) (advance 0 [EvParseLog log] s) →
      dispatched (since s (handleLog cfg w log s).2)
      = [message (type_label (classify (from parsed) (to parsed))) placeholder tokenAddr
           parsed (formatAmount w (value parsed) 18) log].
Proof.
  split; [split; reflexivity|]. split; [apply getTokenMeta_miss|].
  split; [split; reflexivity|].
  intros log s parsed tokenAddr Hs Hp Hc Ha Hthrow.
  destruct (handleLog_handled cfg w log s) as (s' & -> & H). simpl.
  destruct (handled_dispatch cfg w log s s' parsed tokenAddr H Hs Hp Hc Ha)
    as (meta & Hd & _ & Hw & Hm).
  apply Hw in Hthrow. destruct (Hm Hthrow) as [-> _]. exact Hd.
Qed.

Lemma metadata_retry_then_placeholder_witness :
  let cfg := Scenario.cfg 1 in
  let w := Scenario.world Scenario.no_meta in
  getTokenMeta w Scenario.token initial
  = (Throw (RpcError "symbol"),
     advance 3 [EvSymbol Scenario.token None; EvBackoff 1000;
                EvSymbol Scenario.token None; EvBackoff 1500;
                EvSymbol Scenario.token None] initial)
  ∧ getTokenMeta Cases.brittle Scenario.token initial
    = (Throw (NonNetworkTypeError "symbol"),
       advance 1 [EvSymbol Scenario.token None] initial)
  ∧ throws (getTokenMeta w Scenario.token) (advance 0 [EvParseLog Scenario.twin_a] initial)
  ∧ dispatched (since initial (handleLog cfg w Scenario.twin_a initial).2)
    = [message (type_label Mint) placeholder Scenario.token
         (mkArgs ZERO Scenario.alice 1000000000000000000) "1.0" Scenario.twin_a].
Proof.
  cbv zeta. split; [|split; [|split; [vm_compute; exact I|]]].
  - rewrite (proj1 (proj2 (metadata_retry_then_placeholder (Scenario.cfg 1)
                             (Scenario.world Scenario.no_meta)))
               Scenario.token Scenario.token initial eq_refl eq_refl).
    reflexivity.
  - rewrite (proj1 (proj2 (metadata_retry_then_placeholder (Scenario.cfg 1) Cases.brittle))
               Scenario.token Scenario.token initial eq_refl eq_refl).
    reflexivity.
  - apply (proj2 (proj2 (proj2
             (metadata_retry_then_placeholder (Scenario.cfg 1)
                (Scenario.world Scenario.no_meta)))) Scenario.twin_a initial
             (mkArgs ZERO Scenario.alice 1000000000000000000) Scenario.token).
    + vm_compute. reflexivity.
    + vm_compute. reflexivity.
    + vm_compute. discriminate.
    + vm_compute. reflexivity.
    + vm_compute. exact I.
Defined.



(** ** The listeners *)

Ltac preserves_step :=
  match goal with
  | |- preserves _ (bind _ _) => apply preserves_bind; [typeclasses eauto | | intros ?]
  | |- preserves _ (try_catch _ _) => apply preserves_try_catch; [typeclasses eauto | | intros ?]
  | |- preserves _ (ret _) => apply preserves_ret; typeclasses eauto
  | |- preserves _ (throw _) => apply preserves_throw; typeclasses eauto
  | |- preserves _ (gets _) => apply preserves_gets; typeclasses eauto
  | |- preserves _ (of_option _ _) => apply preserves_of_option; typeclasses eauto
  | |- preserves _ (pRetry _ _) => unfold pRetry
  | |- preserves _ (pRetry_from _ _ _ _) =>
      apply preserves_pRetry_from; [typeclasses eauto | | intros ?]
  | |- preserves _ (if ?b then _ else _) => destruct b
  | |- preserves _ (match ?x with _ => _ end) => destruct x
  end.

(** For a relation [same f] with [f] a field that the primitive at hand
    does not write, and for [grows P] with [P] true of the event at hand. *)
Ltac preserves_leaf :=
  first [ by intros ?
        | apply emit_grows; exact I
        | apply ask_grows
        | apply set_tokenCache_grows
        | apply set_lastSeenTx_grows
        | apply set_lastProcessedBlock_grows
        | apply setTimeout_grows ].

Ltac preserves_auto :=
  repeat first [ preserves_leaf | preserves_step ].

Section ListenerFacts.

Context (cfg : Config) (w : World).

Lemma handleLog_cursor log : preserves (same lastProcessedBlock) (handleLog cfg w log).
Proof.
  unfold handleLog, notify, getTokenMeta, bot_sendMessage, ethers_getAddress,
    contract_symbol_call, contract_decimals_call.
  preserves_auto.
Qed.

Lemma handleLog_timers log : preserves (same timers) (handleLog cfg w log).
Proof.
  unfold handleLog, notify, getTokenMeta, bot_sendMessage, ethers_getAddress,
    contract_symbol_call, contract_decimals_call.
  preserves_auto.
Qed.

Lemma handleLog_no_fetch log : preserves (grows no_fetch) (handleLog cfg w log).
Proof.
  unfold handleLog, notify, getTokenMeta, bot_sendMessage, ethers_getAddress,
    contract_symbol_call, contract_decimals_call.
  preserves_auto.
Qed.

Lemma for_logs_cursor logs : preserves (same lastProcessedBlock) (Poll.for_logs cfg w logs).
Proof.
  induction logs as [|log rest IH]; simpl; [preserves_auto|].
  apply preserves_bind; [typeclasses eauto | | intros _; exact IH].
  unfold Poll.gate, provider_getBlockNumber. preserves_auto; apply handleLog_cursor.
Qed.

Lemma for_logs_no_fetch logs : preserves (grows no_fetch) (Poll.for_logs cfg w logs).
Proof.
  induction logs as [|log rest IH]; simpl; [preserves_auto|].
  apply preserves_bind; [typeclasses eauto | | intros _; exact IH].
  unfold Poll.gate, provider_getBlockNumber. preserves_auto; apply handleLog_no_fetch.
Qed.

Lemma no_fetch_fetched tr : Forall no_fetch tr → fetched tr = [].
Proof.
  induction 1 as [|e tr He _ IH]; [done|]. unfold fetched in *.
  destruct e; try done; cbn; exact IH.
Qed.

Lemma first_run_run height s :
  Poll.first_run height s = (Return tt, with_cursor (range_start height s - 1) s).
Proof.
  unfold Poll.first_run, range_start, bind, gets, set_lastProcessedBlock, ret, with_cursor.
  destruct s as [m d c t n tr]. simpl. destruct (c =? 0)%Z; do 2 f_equal; lia.
Qed.

(** One pass of the polling listener, step by step. *)
Lemma pass_run height s :
  Poll.pass cfg w height s
  = let start := range_start height s in
    let s0 := with_cursor (start - 1) s in
    if (height <? start)%Z then (Return tt, s0)
    else
      let f := {| f_address := TOKEN_ADDRESS cfg; f_topics := [TRANSFER_TOPIC];
                  fromBlock := start; toBlock := height |} in
      match getLogs w (tick s) f with
      | None => (Throw (RpcError "getLogs"), advance 1 [EvGetLogs f false] s0)
      | Some logs =>
          match Poll.for_logs cfg w logs (advance 1 [EvGetLogs f true] s0) with
          | (Return _, s2) => (Return tt, with_cursor height s2)
          | (Throw e, s2) => (Throw e, s2)
          end
      end.
Proof.
  unfold Poll.pass. unfold bind at 1. rewrite first_run_run.
  unfold bind at 1, gets. cbn [lastProcessedBlock with_cursor]. cbv zeta.
  replace (range_start height s - 1 + 1) with (range_start height s) by lia.
  destruct (height <? range_start height s)%Z; [done|].
  unfold bind at 1. rewrite provider_getLogs_run. cbn [tick with_cursor].
  destruct (getLogs w (tick s) _) as [logs|]; [|done].
  simpl. unfold bind at 1.
  destruct (Poll.for_logs cfg w logs _) as [[[]|e] s2]; done.
Qed.

(** After a pass the cursor is the height just processed, or, when the
    pass was skipped or threw, one below the start of its range. *)
Lemma pass_cursor height s :
  let s' := (Poll.pass cfg w height s).2 in
  match (Poll.pass cfg w height s).1 with
  | Return _ =>
      if (height <? range_start height s)%Z
      then s' = with_cursor (range_start height s - 1) s
      else lastProcessedBlock s' = height
  | Throw _ =>
      lastProcessedBlock s' = range_start height s - 1
      ∧ (range_start height s ≤ height)%Z
  end.
Proof.
  rewrite pass_run. cbv zeta.
  destruct (height <? range_start height s)%Z eqn:Hskip; [done|].
  apply Z.ltb_ge in Hskip.
  destruct (getLogs w (tick s) _) as [logs|]; [|done].
  match goal with |- context [Poll.for_logs cfg w logs ?s0] =>
    pose proof (for_logs_cursor logs s0) as Hc;
    destruct (Poll.for_logs cfg w logs s0) as [[[]|e] s2] end; simpl in *; [done|].
  split; [exact Hc | exact Hskip].
Qed.

(** The ranges a notification asks [getLogs] for: none when the range is
    empty, otherwise the one range from [range_start] to the height. *)
Lemma onBlock_fetched height s :
  fetched (since s (Poll.onBlock cfg w height s).2)
  = if (height <? range_start height s)%Z then []
    else [(range_start height s, height)].
Proof.
  unfold Poll.onBlock, try_catch. rewrite pass_run. cbv zeta.
  destruct (height <? range_start height s)%Z; [unfold since; simpl; by rewrite drop_all|].
  destruct (getLogs w (tick s) _) as [logs|].
  2:{ rewrite emit_run, advance_advance. unfold since. simpl.
      by rewrite drop_app_length. }
  match goal with |- context [Poll.for_logs cfg w logs ?s0] =>
    destruct (for_logs_no_fetch logs s0) as (tr & E & Hq);
    destruct (Poll.for_logs cfg w logs s0) as [[[]|e] s2] end; simpl in *.
  - unfold since. simpl. rewrite E. simpl. rewrite <- app_assoc, drop_app_length.
    rewrite fetched_app, (no_fetch_fetched _ Hq). done.
  - unfold since. simpl. rewrite E. simpl. rewrite <- !app_assoc, drop_app_length.
    rewrite !fetched_app, (no_fetch_fetched _ Hq). done.
Qed.

Lemma onBlock_returns height s : (Poll.onBlock cfg w height s).1 = Return tt.
Proof.
  unfold Poll.onBlock, try_catch.
  destruct (Poll.pass cfg w height s) as [[[]|e] s']; done.
Qed.

Lemma onBlock_cursor height s :
  lastProcessedBlock (Poll.onBlock cfg w height s).2 = height
  ∨ lastProcessedBlock (Poll.onBlock cfg w height s).2 = range_start height s - 1.
Proof.
  pose proof (pass_cursor height s) as H. cbv zeta in H.
  unfold Poll.onBlock, try_catch.
  destruct (Poll.pass cfg w height s) as [[[]|e] s']; simpl in *.
  - destruct (height <? range_start height s)%Z; [right; by subst s' | by left].
  - right. tauto.
Qed.

(** Away from the value 0, which the listener reads as "no cursor yet",
    the start of the range is the block after the cursor. *)
Lemma range_start_cursor height s :
  lastProcessedBlock s ≠ 0 → range_start height s = lastProcessedBlock s + 1.
Proof.
  intros H. unfold range_start. by destruct (Z.eqb_spec (lastProcessedBlock s) 0).
Qed.

Lemma range_start_initial height : range_start height initial = height.
Proof. unfold range_start. simpl. lia. Qed.

(** With heights of at least 1 the cursor never decreases. *)
Lemma onBlock_monotone height s :
  (1 ≤ height)%Z → (0 ≤ lastProcessedBlock s)%Z →
  (lastProcessedBlock s ≤ lastProcessedBlock (Poll.onBlock cfg w height s).2)%Z.
Proof.
  intros Hh Hc. pose proof (pass_cursor height s) as H. cbv zeta in H.
  unfold Poll.onBlock, try_catch.
  assert (lastProcessedBlock s ≤ range_start height s - 1)%Z as Hle.
  { unfold range_start. destruct (Z.eqb_spec (lastProcessedBlock s) 0); lia. }
  destruct (Poll.pass cfg w height s) as [[[]|e] s']; simpl in *.
  - destruct (height <? range_start height s)%Z eqn:Hskip.
    + subst s'. simpl. exact Hle.
    + apply Z.ltb_ge in Hskip. lia.
  - lia.
Qed.

End ListenerFacts.

(** ** The confirmation gate *)

(** C1, on the code.  CONFIRMATIONS=3, a mint in block 100, head at 101.
    Polling: the pass for block 100 skips the log and still moves the
    cursor to 100, so the ranges of the following notifications start after
    the log's block and the log is never fetched, decoded or notified
    again, although the head has long passed 102.  Subscription: the
    listener returns after arming a timer whose callback only fetches a
    block; when it expires nothing is decoded or notified.  The same log is
    notified at once when the head is at 102. *)
Theorem unconfirmed_log_is_dropped :
  let cfg := Scenario.cfg 3 in
  let w := Scenario.world Scenario.unconfirmed in
  let s1 := (Poll.onBlock cfg w 100 initial).2 in
  let s5 := Poll.notifications cfg w [101; 102; 103; 104] s1 in
  let p1 := (Push.onLog cfg w (Some Scenario.mint100) initial).2 in
  let p2 := (Push.expire w p1).2 in
  (trace s1 = [EvGetLogs (mkFilter (Some Scenario.token) [TRANSFER_TOPIC] 100 100) true;
               EvGetBlockNumber (Some 101)]
   ∧ lastProcessedBlock s1 = 100)
  ∧ (getBlockNumber w (tick s5) = Some 107
     ∧ fetched (since s1 s5) = [(101, 101); (102, 102); (103, 103); (104, 104)]
     ∧ decoded (trace s5) = [] ∧ dispatched (trace s5) = [])
  ∧ (trace p1 = [EvGetBlockNumber (Some 101)]
     ∧ timers p1 = [(30000, GetBlockLater 100)]
     ∧ trace p2 = [EvGetBlockNumber (Some 101); EvGetBlock 100]
     ∧ timers p2 = [])
  ∧ length (delivered (trace (Poll.onBlock cfg (Scenario.world Scenario.settled)
                                100 initial).2)) = 1%nat.
Proof. vm_compute. repeat split. Qed.




(** ** The block cursor *)

(** C6, on the code.  A fresh process is notified of block 1 and the log
    fetch fails, then of block 2.  The first range is {1}; the cursor is
    still 0, which the listener takes for "first run" again, so the second
    range is {2} and not [1, 2], the range from the cursor plus one. *)
Theorem zero_cursor_is_taken_for_first_run :
  let cfg := Scenario.cfg 1 in
  let w := Scenario.world Scenario.young in
  let s1 := (Poll.onBlock cfg w 1 initial).2 in
  let s2 := (Poll.onBlock cfg w 2 s1).2 in
  fetched (since initial s1) = [(1, 1)]
  ∧ lastProcessedBlock s1 = 0
  ∧ fetched (since s1 s2) = [(2, 2)]
  ∧ fetched (since s1 s2) ≠ [(lastProcessedBlock s1 + 1, 2)].
Proof. vm_compute. repeat split. discriminate. Qed.

(** C7, on the code.  In the same run the pass for block 1 fails in
    [getLogs] and leaves the cursor where it was, but the range {1} is not
    retried: the next notification fetches {2} only, moves the cursor to 2,
    and the mint in block 1 is never decoded or notified. *)
Theorem failed_first_range_is_not_retried :
  let cfg := Scenario.cfg 1 in
  let w := Scenario.world Scenario.young in
  let s1 := (Poll.onBlock cfg w 1 initial).2 in
  let s2 := (Poll.onBlock cfg w 2 s1).2 in
  Scenario.chain Scenario.young = [Scenario.mint1]
  ∧ trace s1 = [EvGetLogs (mkFilter (Some Scenario.token) [TRANSFER_TOPIC] 1 1) false;
                EvConsoleError (RpcError "getLogs")]
  ∧ lastProcessedBlock s1 = lastProcessedBlock initial
  ∧ since s1 s2 = [EvGetLogs (mkFilter (Some Scenario.token) [TRANSFER_TOPIC] 2 2) true]
  ∧ lastProcessedBlock s2 = 2
  ∧ decoded (trace s2) = [] ∧ dispatched (trace s2) = [].
Proof. vm_compute. repeat split. Qed.

(** ** The bound on the seen set *)

Lemma records_snoc hs h : records (hs ++ [h]) = record_seen h (records hs).
Proof. unfold records. by rewrite foldl_app. Qed.

Lemma records_wf hs :
  NoDup (JsSet.elements (records hs)) ∧ (JsSet.size (records hs) ≤ ceiling)%nat.
Proof.
  induction hs as [|h hs [IH1 IH2]] using rev_ind.
  - split; [apply NoDup_nil_2 | unfold ceiling, JsSet.size; cbn; lia].
  - rewrite records_snoc. split; [by apply NoDup_record_seen | by apply size_record_seen].
Qed.

(** While the ceiling is not exceeded, the set holds exactly what was
    inserted, in insertion order. *)
Lemma records_fresh l :
  NoDup l → (length l ≤ ceiling)%nat → JsSet.elements (records l) = l.
Proof.
  induction l as [|x l IH] using rev_ind; intros Hnd Hlen; [done|].
  rewrite length_app in Hlen. cbn [length] in Hlen.
  apply NoDup_app in Hnd as (Hl & Hx & _).
  rewrite records_snoc, elements_record_seen by apply records_wf.
  rewrite elements_add, IH by (done || lia).
  assert (JsSet.has x (records l) = false) as ->.
  { apply has_false. rewrite IH by (done || lia). intros Hin.
    apply (Hx x Hin). by apply list_elem_of_singleton. }
  rewrite length_app. cbn [length].
  destruct (Nat.ltb_spec ceiling (length l + 1)); [lia | done].
Qed.

(** C5.  Starting from the empty set of a fresh process, the seen set never
    holds more than 1000 identifiers after a record operation, in the set
    alone and in the state that [handleLog] leaves; an insertion that takes
    the size above 1000 is followed by the eviction of the 200 identifiers
    inserted earliest; and after 1001 distinct identifiers the 200 earliest
    are gone and the others remain, in order. *)
Theorem dedup_set_is_bounded :
  (ceiling = 1000%nat ∧ batch = 200%nat)
  ∧ (∀ hs, (JsSet.size (records hs) ≤ ceiling)%nat)
  ∧ (∀ cfg w log s,
       seen_wf s → (JsSet.size (lastSeenTx s) ≤ ceiling)%nat →
       seen_wf (handleLog cfg w log s).2
       ∧ (JsSet.size (lastSeenTx (handleLog cfg w log s).2) ≤ ceiling)%nat)
  ∧ (∀ hs h,
       (ceiling < JsSet.size (JsSet.add h (records hs)))%nat →
       JsSet.elements (record_seen h (records hs))
       = drop batch (JsSet.elements (records hs) ++ [h]))
  ∧ (∀ l,
       NoDup l → length l = S ceiling →
       (JsSet.size (records l) ≤ ceiling)%nat
       ∧ JsSet.elements (records l) = drop batch l
       ∧ ∀ x, x ∈ take batch l → JsSet.has x (records l) = false).
Proof.
  split; [done|]. split; [intros hs; apply records_wf|]. split; [|split].
  - intros cfg w log s Hwf Hsz. split; [by apply handleLog_seen_wf|].
    destruct (handleLog_handled cfg w log s) as (s' & -> & H). simpl.
    destruct (handled_seen_set _ _ _ _ _ H) as [[-> _] | (-> & _)]; [done|].
    by apply size_record_seen.
  - intros hs h Hgt. destruct (records_wf hs) as [Hnd Hsz].
    unfold JsSet.size in *. rewrite elements_record_seen by done.
    apply Nat.ltb_lt in Hgt as Hgt'. rewrite Hgt'.
    rewrite elements_add in *. destruct (JsSet.has h (records hs)); [lia | done].
  - intros l Hnd Hlen.
    destruct l as [|x l0 _] using rev_ind; [discriminate|].
    rewrite length_app in Hlen. cbn [length] in Hlen.
    apply NoDup_app in Hnd as Hparts. destruct Hparts as (Hl0 & Hx & _).
    assert (JsSet.elements (records (l0 ++ [x])) = drop batch (l0 ++ [x])) as E.
    { rewrite records_snoc, elements_record_seen by apply records_wf.
      rewrite elements_add, records_fresh by (done || lia).
      assert (JsSet.has x (records l0) = false) as ->.
      { apply has_false. rewrite records_fresh by (done || lia). intros Hin.
        apply (Hx x Hin). by apply list_elem_of_singleton. }
      rewrite length_app. cbn [length].
      destruct (Nat.ltb_spec ceiling (length l0 + 1)); [done | lia]. }
    split; [apply records_wf|]. split; [exact E|].
    intros y Hy. apply has_false. rewrite E. intros Hy'.
    rewrite <- (take_drop batch (l0 ++ [x])) in Hnd.
    apply NoDup_app in Hnd as (_ & Hdisj & _). exact (Hdisj y Hy Hy').
Qed.

Lemma dedup_set_is_bounded_witness :
  NoDup Scenario.ids
  ∧ length Scenario.ids = 1001%nat
  ∧ (JsSet.size (records Scenario.ids) ≤ 1000)%nat
  ∧ JsSet.elements (records Scenario.ids) = drop 200 Scenario.ids
  ∧ JsSet.has "199" (records Scenario.ids) = false.
Proof.
  assert (NoDup Scenario.ids) as Hnd by (apply (bool_decide_unpack _); vm_compute; exact I).
  assert (length Scenario.ids = S ceiling) as Hlen by (vm_compute; reflexivity).
  destruct dedup_set_is_bounded as (_ & _ & _ & _ & H).
  destruct (H Scenario.ids Hnd Hlen) as (H1 & H2 & H3).
  split; [exact Hnd|]. split; [exact Hlen|]. split; [exact H1|]. split; [exact H2|].
  apply H3. apply (bool_decide_unpack _). vm_compute. exact I.
Defined.

(** * Further properties *)

(** ** [handleLog] *)

Lemma extends_since s s1 s2 :
  (∃ t1, trace s1 = trace s ++ t1) → (∃ t2, trace s2 = trace s1 ++ t2) →
  since s s2 = since s s1 ++ since s1 s2.
Proof.
  intros [t1 E1] [t2 E2].
  rewrite (since_app s s1 t1 E1), (since_app s1 s2 t2 E2).
  apply since_app. by rewrite E2, E1, app_assoc.
Qed.

Lemma handleLog_extends cfg w log s :
  ∃ tr, trace (handleLog cfg w log s).2 = trace s ++ tr.
Proof. destruct (handleLog_no_fetch cfg w log s) as (tr & E & _). by exists tr. Qed.

Lemma handle_each_extends cfg w logs s :
  ∃ tr, trace (handle_each cfg w logs s) = trace s ++ tr.
Proof.
  revert s. induction logs as [|l rest IH]; intros s; simpl.
  - exists []. by rewrite app_nil_r.
  - destruct (handleLog_extends cfg w l s) as [t1 E1].
    destruct (IH (handleLog cfg w l s).2) as [t2 E2].
    exists (t1 ++ t2). by rewrite E2, E1, app_assoc.
Qed.

Lemma dispatched_delivered tr : dispatched tr = [] → delivered tr = [].
Proof.
  unfold dispatched, delivered. induction tr as [|e tr IH]; [done|].
  destruct e; cbn; try exact IH. intros; discriminate.
Qed.

Lemma gtb_false c : (c ≤ 1)%Z → (c >? 1)%Z = false.
Proof. intros H. rewrite Z.gtb_ltb. apply Z.ltb_ge. lia. Qed.

Lemma classify_zero sender recipient :
  classify sender recipient ≠ Ignored →
  is_zero sender = true ∨ is_zero recipient = true.
Proof.
  unfold classify. destruct (is_zero sender), (is_zero recipient); simpl; auto.
Qed.

(** [handleLog] always resolves and never writes the block cursor or the
    timers; and whatever fails inside it is logged: a log the decoder
    rejects and an address [ethers.getAddress] rejects end the call with
    that error on [console.error] as the last event, a metadata lookup that
    throws puts its error on [console.warn], and a rejected dispatch is
    followed at once by [console.error], which ends the call. *)
Theorem handleLog_is_contained (cfg : Config) (w : World) (log : Log) (s : State) :
  (handleLog cfg w log s).1 = Return tt
  ∧ lastProcessedBlock (handleLog cfg w log s).2 = lastProcessedBlock s
  ∧ timers (handleLog cfg w log s).2 = timers s
  ∧ (JsSet.has (transactionHash log) (lastSeenTx s) = false →
     (parseLog w log = None →
      since s (handleLog cfg w log s).2
      = [EvParseLog log; EvConsoleError (ParseError log)])
     ∧ ∀ parsed,
         parseLog w log = Some parsed →
         classify (from parsed) (to parsed) ≠ Ignored →
         (getAddress w (address log) = None →
          since s (handleLog cfg w log s).2
          = [EvParseLog log; EvConsoleError (InvalidAddress (address log))])
         ∧ ∀ tokenAddr e s0,
             getAddress w (address log) = Some tokenAddr →
             getTokenMeta w tokenAddr (advance 0 [EvParseLog log] s) = (Throw e, s0) →
             EvConsoleWarn e ∈ since s (handleLog cfg w log s).2)
  ∧ ∀ chat msg,
      EvSendMessage chat msg false ∈ since s (handleLog cfg w log s).2 →
      ∃ tr, since s (handleLog cfg w log s).2
            = tr ++ [EvSendMessage chat msg false; EvConsoleError TelegramError].
Proof.
  split; [apply handleLog_returns|]. split; [apply handleLog_cursor|].
  split; [apply handleLog_timers|].
  destruct (handleLog_handled cfg w log s) as (s' & -> & H). simpl.
  inversion H as [Hs | Hs Hp | parsed Hs Hp Hc | parsed Hs Hp Hc Ha
                  | parsed a meta s1 msg Hs Hp Hc Ha Hm Hmsg Hsend
                  | parsed a meta s1 msg Hs Hp Hc Ha Hm Hmsg Hsend]; subst;
    rewrite ?since_refl, ?since_advance.
  1-4: split;
       [ intros Hnew; split;
         [ intros Hnone; congruence || done
         | intros p Hp' Hc'; split;
           [ intros Hnone; congruence || done
           | intros t e s0 Ha' Hthrow; congruence ] ]
       | intros chat m Hin;
         repeat (apply elem_of_cons in Hin as [Hin|Hin]; [discriminate|]);
         by apply elem_of_nil in Hin ].
  all: destruct (meta_or_placeholder_run w a (advance 0 [EvParseLog log] s))
         as (m' & s1' & Hm' & _ & Hcase).
  all: rewrite Hm in Hm'; injection Hm' as <- <-.
  all: assert (∃ tr, trace s1 = trace s ++ EvParseLog log :: tr
                     ∧ dispatched tr = []
                     ∧ ∀ e s0, getTokenMeta w a (advance 0 [EvParseLog log] s) = (Throw e, s0) →
                               EvConsoleWarn e ∈ tr) as (tr & E & Hq & Hwarn).
  1,3: destruct Hcase as [[Hret (tr & E & Hq)] | (e & s0 & Hthrow & (tr & E & Hq) & -> & ->)];
       [ exists tr; simpl in E; rewrite <- app_assoc in E;
         split; [exact E|]; split; [by apply quiet_silent|];
         intros e s0 Hthrow; congruence
       | exists (tr ++ [EvConsoleWarn e]); simpl in *; rewrite E, <- !app_assoc;
         split; [done|]; split;
         [ rewrite dispatched_app; by rewrite (proj1 (quiet_silent tr Hq))
         | intros e' s0' Hthrow'; assert (e' = e) as -> by congruence;
           apply elem_of_app; right; apply elem_of_cons; by left ] ].
  all: erewrite since_app by (simpl; rewrite E; rewrite <- app_assoc; reflexivity).
  all: split;
       [ intros _; split; [congruence|];
         intros p Hp' Hc'; split; [congruence|];
         intros t e s0 Ha' Hthrow; assert (t = a) as -> by congruence;
         apply elem_of_cons; right; apply elem_of_app; left; by apply (Hwarn e s0) |].
  all: intros chat m Hin.
  all: apply elem_of_cons in Hin as [Hin|Hin]; [discriminate|].
  all: apply elem_of_app in Hin as [Hin|Hin];
       [apply dispatched_elem in Hin; rewrite Hq in Hin; by apply elem_of_nil in Hin|].
  all: apply elem_of_cons in Hin as [Hin|Hin].
  all: try discriminate.
  2: injection Hin as -> ->; exists (EvParseLog log :: tr); by rewrite <- app_comm_cons.
  all: repeat (apply elem_of_cons in Hin as [Hin|Hin]; [discriminate|]);
       by apply elem_of_nil in Hin.
Qed.

Lemma handleLog_is_contained_witness :
  let cfg := Scenario.cfg 1 in
  since initial (handleLog cfg (Scenario.world Cases.mixed) Cases.garbled initial).2
  = [EvParseLog Cases.garbled; EvConsoleError (ParseError Cases.garbled)]
  ∧ EvConsoleWarn (RpcError "symbol")
    ∈ since initial (handleLog cfg (Scenario.world Scenario.no_meta) Scenario.twin_a initial).2.
Proof.
  cbv zeta. split.
  - apply (proj1 (proj1 (proj2 (proj2 (proj2 (handleLog_is_contained (Scenario.cfg 1)
             (Scenario.world Cases.mixed) Cases.garbled initial)))) eq_refl)).
    reflexivity.
  - apply (proj2 (proj2 (proj1 (proj2 (proj2 (proj2 (handleLog_is_contained (Scenario.cfg 1)
             (Scenario.world Scenario.no_meta) Scenario.twin_a initial)))) eq_refl)
             (mkArgs ZERO Scenario.alice 1000000000000000000) eq_refl
             ltac:(vm_compute; discriminate))
             Scenario.token (RpcError "symbol")
             (advance 3 [EvSymbol Scenario.token None; EvBackoff 1000;
                         EvSymbol Scenario.token None; EvBackoff 1500;
                         EvSymbol Scenario.token None]
                (advance 0 [EvParseLog Scenario.twin_a] initial))
             eq_refl).
    vm_compute. reflexivity.
Defined.

(** A log that the decoder rejects costs one logged error and nothing else:
    no message, no change to the caches, and the rest of the batch is
    processed from there as if the log had not been in it. *)
Theorem undecodable_log_is_skipped (cfg : Config) (w : World) (log : Log) (s : State) :
  JsSet.has (transactionHash log) (lastSeenTx s) = false →
  parseLog w log = None →
  let s' := advance 0 [EvParseLog log; EvConsoleError (ParseError log)] s in
  handleLog cfg w log s = (Return tt, s')
  ∧ (∀ rest, handle_each cfg w (log :: rest) s = handle_each cfg w rest s')
  ∧ (∀ rest, (CONFIRMATIONS cfg ≤ 1)%Z →
       Poll.for_logs cfg w (log :: rest) s = Poll.for_logs cfg w rest s').
Proof.
  intros Hs Hp. cbv zeta.
  assert (handleLog cfg w log s
          = (Return tt, advance 0 [EvParseLog log; EvConsoleError (ParseError log)] s)) as E.
  { by rewrite (handleLog_unseen _ _ _ _ Hs), Hp. }
  split; [exact E|]. split.
  - intros rest. simpl. by rewrite E.
  - intros rest Hc. simpl. unfold bind at 1, Poll.gate.
    rewrite (gtb_false _ Hc). by rewrite E.
Qed.

Lemma undecodable_log_is_skipped_witness :
  let cfg := Scenario.cfg 1 in
  let w := Scenario.world Cases.mixed in
  parseLog w Cases.garbled = None
  ∧ length (delivered (trace (handle_each cfg w [Cases.garbled; Scenario.twin_a] initial)))
    = 1%nat.
Proof.
  cbv zeta. split; [reflexivity|].
  destruct (undecodable_log_is_skipped (Scenario.cfg 1) (Scenario.world Cases.mixed)
              Cases.garbled initial) as (_ & H & _); [reflexivity | reflexivity |].
  rewrite H. vm_compute. reflexivity.
Defined.

(** One call of [handleLog] hands at most one message to the channel, always
    to the configured chat, and only for a log that was not seen before and
    whose decoded sender or recipient is the zero address. *)
Theorem dispatch_only_for_mint_or_burn (cfg : Config) (w : World) (log : Log) (s : State) :
  (length (dispatched (since s (handleLog cfg w log s).2)) ≤ 1)%nat
  ∧ ∀ chat msg ok,
      EvSendMessage chat msg ok ∈ since s (handleLog cfg w log s).2 →
      chat = TELEGRAM_CHAT_ID cfg
      ∧ JsSet.has (transactionHash log) (lastSeenTx s) = false
      ∧ ∃ parsed, parseLog w log = Some parsed
                  ∧ (is_zero (from parsed) = true ∨ is_zero (to parsed) = true).
Proof.
  destruct (handleLog_handled cfg w log s) as (s' & -> & H). simpl.
  inversion H as [Hs | Hs Hp | parsed Hs Hp Hc | parsed Hs Hp Hc Ha
                  | parsed a meta s1 msg Hs Hp Hc Ha Hm Hmsg Hsend
                  | parsed a meta s1 msg Hs Hp Hc Ha Hm Hmsg Hsend]; subst;
    rewrite ?since_refl, ?since_advance.
  1-4: split; [simpl; lia|]; intros chat m ok Hin;
       repeat (apply elem_of_cons in Hin as [Hin|Hin]; [discriminate|]);
       by apply elem_of_nil in Hin.
  all: apply meta_or_placeholder_trace in Hm as (_ & tr & E & H1 & _).
  all: simpl in E.
  all: erewrite since_app by (simpl; rewrite E; simpl; rewrite <- !app_assoc; reflexivity).
  all: rewrite !dispatched_app, H1; split; [simpl; lia|].
  all: intros chat m ok Hin.
  all: apply elem_of_cons in Hin as [Hin|Hin]; [discriminate|].
  all: apply elem_of_app in Hin as [Hin|Hin];
       [apply dispatched_elem in Hin; rewrite H1 in Hin; by apply elem_of_nil in Hin|].
  all: apply elem_of_cons in Hin as [Hin|Hin];
       [injection Hin as -> _ _; split; [done|]; split; [done|];
        exists parsed; split; [done | by apply classify_zero]|].
  all: repeat (apply elem_of_cons in Hin as [Hin|Hin]; [discriminate|]);
       by apply elem_of_nil in Hin.
Qed.

Lemma dispatch_only_for_mint_or_burn_witness :
  let cfg := Scenario.cfg 1 in
  let w := Scenario.world Scenario.calm in
  let msg := message (type_label Burn) (mkMeta "EURP" 18 (Some 2)) Scenario.token
               (mkArgs Scenario.alice ZERO 1000000000000000000) "1.0" Cases.burn in
  EvSendMessage "-1001" msg true ∈ since initial (handleLog cfg w Cases.burn initial).2
  ∧ TELEGRAM_CHAT_ID cfg = "-1001"
  ∧ parseLog w Cases.burn = Some (mkArgs Scenario.alice ZERO 1000000000000000000).
Proof.
  cbv zeta.
  match goal with |- ?P ∧ _ => assert P as Hin end.
  { assert (∃ e1 e2 e3, since initial
              (handleLog (Scenario.cfg 1) (Scenario.world Scenario.calm) Cases.burn initial).2
            = [e1; e2; e3;
               EvSendMessage "-1001"
                 (message (type_label Burn) (mkMeta "EURP" 18 (Some 2)) Scenario.token
                    (mkArgs Scenario.alice ZERO 1000000000000000000) "1.0" Cases.burn) true])
      as (e1 & e2 & e3 & ->) by (do 3 eexists; vm_compute; reflexivity).
    do 3 (apply elem_of_cons; right). apply elem_of_cons. by left. }
  destruct (proj2 (dispatch_only_for_mint_or_burn (Scenario.cfg 1)
                     (Scenario.world Scenario.calm) Cases.burn initial) _ _ _ Hin)
    as (Hchat & _ & _).
  split; [exact Hin|]. split; [by rewrite <- Hchat | reflexivity].
Defined.

(** Idempotence.  However many logs of one transaction are handled one after
    the other, the same log again or different logs, from a state whose seen
    set is well formed: at most one message is delivered for them. *)
Theorem same_transaction_delivered_at_most_once
    (cfg : Config) (w : World) (h : string) (logs : list Log) (s : State) :
  seen_wf s →
  Forall (fun l => transactionHash l = h) logs →
  (length (delivered (since s (handle_each cfg w logs s))) ≤ 1)%nat.
Proof.
  intros Hwf Hall. revert s Hwf. induction Hall as [|l rest Hl Hrest IH]; intros s Hwf.
  { simpl. rewrite since_refl. simpl. lia. }
  simpl.
  rewrite (extends_since s (handleLog cfg w l s).2)
    by (apply handleLog_extends || apply handle_each_extends).
  rewrite delivered_app, length_app.
  pose proof (handleLog_seen_wf cfg w l s Hwf) as Hwf1.
  destruct (handleLog_handled cfg w l s) as (s1 & E & H). rewrite E in *. simpl in *.
  destruct (handled_seen_set _ _ _ _ _ H) as [[_ Hd] | (Hrec & Hnew & tr & msg & Es & Hq)].
  - rewrite Hd. simpl. by apply IH.
  - assert (JsSet.has h (lastSeenTx s1) = true) as Hin.
    { rewrite Hrec, <- Hl. by apply has_record_seen. }
    rewrite (handle_each_seen cfg w h rest s1 Hin Hrest).
    rewrite since_refl, Es, delivered_app, (dispatched_delivered _ Hq). simpl. lia.
Qed.

Lemma same_transaction_delivered_at_most_once_witness :
  (length (delivered (since initial
     (handle_each (Scenario.cfg 1) (Scenario.world Scenario.calm)
        [Scenario.twin_a; Scenario.twin_a; Scenario.twin_b] initial))) ≤ 1)%nat.
Proof.
  apply (same_transaction_delivered_at_most_once _ _ "0x7717").
  - apply NoDup_nil_2.
  - repeat constructor.
Defined.

(** ** The token cache *)

(** A lookup that returns also leaves its result in the cache under the
    normalised address, so that the same lookup made again, then or in any
    later state that still has the cache entries, returns the same metadata
    without any call to the contract and without changing the state. *)
Theorem metadata_lookup_round_trip (w : World) (a : string) (s s1 : State) (meta : TokenMeta) :
  getTokenMeta w a s = (Return meta, s1) →
  (∀ s2, cache_extends s1 s2 → getTokenMeta w a s2 = (Return meta, s2))
  ∧ ∃ a', getAddress w a = Some a' ∧ tokenCache s1 !! a' = Some meta.
Proof.
  intros H.
  assert (∃ a', getAddress w a = Some a' ∧ tokenCache s1 !! a' = Some meta) as (a' & Ha & Hc).
  { revert H. unfold getTokenMeta, ethers_getAddress, bind at 1.
    destruct (getAddress w a) as [a'|]; simpl; [|discriminate].
    unfold bind at 1. simpl.
    destruct (tokenCache s !! a') as [m|] eqn:Hhit.
    { intros [= <- <-]. by exists a'. }
    unfold bind at 1.
    destruct (pRetry (contract_symbol_call w a') meta_retry s) as [[sym|e1] s2]; [|discriminate].
    unfold bind at 1.
    destruct (pRetry (contract_decimals_call w a') meta_retry s2) as [[dec|e2] s3];
      [|discriminate].
    intros [= <- <-]. exists a'. split; [done|]. simpl. apply lookup_insert_eq. }
  split; [|by exists a'].
  intros s2 Hext. apply (getTokenMeta_hit w a a'); [done | by apply Hext].
Qed.

Lemma metadata_lookup_round_trip_witness :
  let w := Scenario.world Scenario.calm in
  let s1 := (getTokenMeta w Scenario.token initial).2 in
  getTokenMeta w Scenario.token s1 = (Return (mkMeta "EURP" 18 (Some 2)), s1).
Proof.
  cbv zeta.
  apply (proj1 (metadata_lookup_round_trip (Scenario.world Scenario.calm) Scenario.token
                  initial _ (mkMeta "EURP" 18 (Some 2)) ltac:(vm_compute; reflexivity))).
  by intros a m.
Defined.

Global Instance cache_extends_preorder : PreOrder cache_extends.
Proof.
  split; [by intros s a m | intros s1 s2 s3 H12 H23 a m H]. by apply H23, H12.
Qed.




(** ** The seen set *)

Lemma record_seen_known h d :
  JsSet.has h d = true → (JsSet.size d ≤ ceiling)%nat → record_seen h d = d.
Proof.
  intros Hin Hsz. unfold record_seen. cbv zeta.
  assert (JsSet.add h d = d) as -> by (unfold JsSet.add; by rewrite Hin).
  by destruct (Nat.ltb_spec ceiling (JsSet.size d)); [lia|].
Qed.

(** Recording is idempotent: recording an identifier a second time leaves
    the set, a well-formed one within its ceiling, exactly as the first
    recording left it. *)
Theorem record_is_idempotent (h : string) (d : JsSet.t) :
  NoDup (JsSet.elements d) → (JsSet.size d ≤ ceiling)%nat →
  record_seen h (record_seen h d) = record_seen h d.
Proof.
  intros Hnd Hsz. apply record_seen_known; [|by apply size_record_seen].
  destruct (JsSet.has h d) eqn:Hin.
  - by rewrite record_seen_known.
  - by apply has_record_seen.
Qed.

Lemma record_is_idempotent_witness :
  record_seen "0xabc" (record_seen "0xabc" (records ["0x01"; "0x02"]))
  = record_seen "0xabc" (records ["0x01"; "0x02"]).
Proof.
  apply record_is_idempotent; [apply records_wf | apply records_wf].
Defined.

Lemma recent_has h age d : recent h age d → JsSet.has h d = true.
Proof.
  intros (_ & older & newer & E & _). apply has_true. rewrite E.
  apply elem_of_app. right. apply elem_of_cons. by left.
Qed.

Lemma recent_fresh h d :
  NoDup (JsSet.elements d) → JsSet.has h d = false → recent h 0 (record_seen h d).
Proof.
  intros Hnd Hnew. split; [by apply NoDup_record_seen|].
  rewrite (elements_record_seen _ _ Hnd), elements_add, Hnew.
  destruct (Nat.ltb_spec ceiling (length (JsSet.elements d ++ [h]))) as [Hgt|_].
  - rewrite length_app in Hgt. cbn [length] in Hgt.
    rewrite drop_app_le by (revert Hgt; unfold batch, ceiling; lia).
    by exists (drop batch (JsSet.elements d)), [].
  - by exists (JsSet.elements d), [].
Qed.

(** One more insertion ages a recent identifier by at most one, and does not
    evict it while fewer than 800 identifiers are newer. *)
Lemma recent_step h age x d :
  recent h age d → (age < ceiling - batch)%nat → recent h (S age) (record_seen x d).
Proof.
  intros (Hnd & older & newer & E & Hage) Hlt. split; [by apply NoDup_record_seen|].
  rewrite (elements_record_seen _ _ Hnd), elements_add, E.
  assert (∃ newer', (if JsSet.has x d then older ++ h :: newer
                     else (older ++ h :: newer) ++ [x]) = older ++ h :: newer'
                    ∧ (length newer' ≤ S age)%nat) as (newer' & -> & Hage').
  { destruct (JsSet.has x d).
    - exists newer. split; [done | lia].
    - exists (newer ++ [x]). rewrite <- app_assoc. split; [done|].
      rewrite length_app. cbn [length]. lia. }
  destruct (Nat.ltb_spec ceiling (length (older ++ h :: newer'))) as [Hgt|_].
  - rewrite length_app in Hgt. cbn [length] in Hgt.
    rewrite drop_app_le by (revert Hgt Hage' Hlt; unfold batch, ceiling; lia).
    by exists (drop batch older), newer'.
  - by exists older, newer'.
Qed.

Lemma recent_after h hs :
  ∀ age d, recent h age d → (age + length hs ≤ ceiling - batch)%nat →
           JsSet.has h (foldl (fun d x => record_seen x d) d hs) = true.
Proof.
  induction hs as [|x hs IH]; intros age d Hrec Hlen; cbn [foldl length] in *.
  - by apply (recent_has h age).
  - apply (IH (S age)); [apply recent_step; [done | lia] | lia].
Qed.

(** The de-duplication window.  An identifier recorded when it was not in
    the set is still in the set after any 800 further record operations,
    whatever identifiers they record: eviction reaches it no earlier than
    the 801st. *)
Theorem seen_for_the_next_800 (h : string) (d : JsSet.t) (hs : list string) :
  NoDup (JsSet.elements d) → JsSet.has h d = false → (length hs ≤ 800)%nat →
  JsSet.has h (foldl (fun d x => record_seen x d) (record_seen h d) hs) = true.
Proof.
  intros Hnd Hnew Hlen. apply (recent_after h hs 0); [by apply recent_fresh|].
  revert Hlen. unfold ceiling, batch. lia.
Qed.

Lemma seen_for_the_next_800_witness :
  JsSet.has "0xabc"
    (foldl (fun d x => record_seen x d) (record_seen "0xabc" JsSet.empty)
       (take 800 Scenario.ids)) = true.
Proof.
  apply seen_for_the_next_800.
  - apply NoDup_nil_2.
  - reflexivity.
  - rewrite length_take. apply Nat.le_min_l.
Defined.

(** ** The transaction link *)

(** The link is the explorer's address followed by the hash, so different
    hashes give different links. *)
Theorem txLink_is_injective (h1 h2 : string) :
  txLink h1 = txLink h2 → h1 = h2.
Proof. unfold txLink. intros H. simpl in H. by repeat injection H as H. Qed.

Lemma txLink_is_injective_witness : "0xabc" = "0xabc".
Proof. apply txLink_is_injective. reflexivity. Defined.

(** ** The polling listener *)

Lemma for_logs_ungated cfg w logs s :
  (CONFIRMATIONS cfg ≤ 1)%Z →
  Poll.for_logs cfg w logs s = (Return tt, handle_each cfg w logs s).
Proof.
  intros Hc. revert s. induction logs as [|l rest IH]; intros s; [done|].
  simpl. unfold bind at 1, Poll.gate. rewrite (gtb_false _ Hc).
  destruct (handleLog_handled cfg w l s) as (s1 & -> & _). simpl. apply IH.
Qed.

(** Without a confirmation requirement a pass whose log fetch succeeds hands
    every fetched log to [handleLog], in the order received and whatever
    happens to the ones before it, and then moves the cursor to the notified
    height. *)
Theorem ungated_pass_handles_every_log
    (cfg : Config) (w : World) (height : Z) (s : State) (logs : list Log) :
  (CONFIRMATIONS cfg ≤ 1)%Z →
  (range_start height s ≤ height)%Z →
  getLogs w (tick s)
    (mkFilter (TOKEN_ADDRESS cfg) [TRANSFER_TOPIC] (range_start height s) height)
  = Some logs →
  Poll.onBlock cfg w height s
  = (Return tt,
     with_cursor height
       (handle_each cfg w logs
          (advance 1
             [EvGetLogs (mkFilter (TOKEN_ADDRESS cfg) [TRANSFER_TOPIC]
                           (range_start height s) height) true]
             (with_cursor (range_start height s - 1) s)))).
Proof.
  intros Hc Hrange Hlogs. unfold Poll.onBlock, try_catch. rewrite pass_run. cbv zeta.
  assert ((height <? range_start height s)%Z = false) as -> by (apply Z.ltb_ge; lia).
  rewrite Hlogs, (for_logs_ungated _ _ _ _ Hc). done.
Qed.

Lemma ungated_pass_handles_every_log_witness :
  let cfg := Scenario.cfg 1 in
  let w := Scenario.world Cases.mixed in
  let s' := (Poll.onBlock cfg w 9 initial).2 in
  decoded (trace s') = [Cases.garbled; Scenario.twin_a; Cases.burn]
  ∧ length (delivered (trace s')) = 2%nat
  ∧ lastProcessedBlock s' = 9.
Proof.
  cbv zeta.
  rewrite (ungated_pass_handles_every_log (Scenario.cfg 1) (Scenario.world Cases.mixed)
             9 initial [Cases.garbled; Scenario.twin_a; Cases.burn]);
    [| vm_compute; discriminate | vm_compute; discriminate | vm_compute; reflexivity].
  vm_compute. repeat split.
Defined.

(** The confirmation threshold.  With a confirmation count C above 1 and a
    head query answered with [latest], a log of block b is handled at once
    exactly when b + C - 1 <= latest, by either listener; below that the
    polling loop moves on to the next log and the subscription listener
    arms a 30 second timer, and neither decodes the log. *)
Theorem confirmation_threshold
    (cfg : Config) (w : World) (log : Log) (s : State) (latest : Z) :
  (CONFIRMATIONS cfg > 1)%Z →
  transactionHash log ≠ EmptyString →
  getBlockNumber w (tick s) = Some latest →
  let s1 := advance 1 [EvGetBlockNumber (Some latest)] s in
  ((blockNumber log + CONFIRMATIONS cfg - 1 ≤ latest)%Z →
   Poll.gate cfg w log s = handleLog cfg w log s1
   ∧ Push.onLog cfg w (Some log) s = handleLog cfg w log s1)
  ∧ ((latest < blockNumber log + CONFIRMATIONS cfg - 1)%Z →
     Poll.gate cfg w log s = (Return tt, s1)
     ∧ Push.onLog cfg w (Some log) s
       = (Return tt, with_timers (timers s ++ [(30000, GetBlockLater (blockNumber log))]) s1)).
Proof.
  intros Hc Hhash Hhead. cbv zeta.
  apply Z.gt_lt, Z.gtb_lt in Hc. apply String.eqb_neq in Hhash.
  assert (Poll.gate cfg w log s
          = if (blockNumber log + CONFIRMATIONS cfg - 1 >? latest)%Z
            then (Return tt, advance 1 [EvGetBlockNumber (Some latest)] s)
            else handleLog cfg w log (advance 1 [EvGetBlockNumber (Some latest)] s)) as Hpoll.
  { unfold Poll.gate. cbv zeta. rewrite Hc. unfold bind at 1.
    rewrite provider_getBlockNumber_run, Hhead.
    by destruct (blockNumber log + CONFIRMATIONS cfg - 1 >? latest)%Z. }
  assert (Push.onLog cfg w (Some log) s
          = if (blockNumber log + CONFIRMATIONS cfg - 1 >? latest)%Z
            then (Return tt,
                  with_timers (timers s ++ [(30000, GetBlockLater (blockNumber log))])
                    (advance 1 [EvGetBlockNumber (Some latest)] s))
            else handleLog cfg w log (advance 1 [EvGetBlockNumber (Some latest)] s)) as Hpush.
  { unfold Push.onLog. rewrite Hhash. cbv zeta. rewrite Hc.
    unfold bind at 1, try_catch at 1. unfold bind at 1.
    rewrite provider_getBlockNumber_run, Hhead.
    by destruct (blockNumber log + CONFIRMATIONS cfg - 1 >? latest)%Z. }
  rewrite Hpoll, Hpush. split; intros Hcmp.
  - assert ((blockNumber log + CONFIRMATIONS cfg - 1 >? latest)%Z = false) as ->
      by (rewrite Z.gtb_ltb; apply Z.ltb_ge; lia).
    done.
  - assert ((blockNumber log + CONFIRMATIONS cfg - 1 >? latest)%Z = true) as ->
      by (apply Z.gtb_lt; lia).
    done.
Qed.

Lemma confirmation_threshold_witness :
  let cfg := Scenario.cfg 3 in
  let w := Scenario.world Scenario.settled in
  Poll.gate cfg w Scenario.mint100 initial
  = handleLog cfg w Scenario.mint100 (advance 1 [EvGetBlockNumber (Some 102)] initial).
Proof.
  cbv zeta.
  apply (confirmation_threshold (Scenario.cfg 3) (Scenario.world Scenario.settled)
           Scenario.mint100 initial 102).
  - reflexivity.
  - discriminate.
  - reflexivity.
  - vm_compute. discriminate.
Defined.

Lemma no_fetch_queries tr : Forall no_fetch tr → queries tr = [].
Proof.
  induction 1 as [|e tr He _ IH]; [done|]. unfold queries in *.
  destruct e; try done; cbn; exact IH.
Qed.

Lemma queries_app t1 t2 : queries (t1 ++ t2) = queries t1 ++ queries t2.
Proof. apply omap_app. Qed.

Lemma with_cursor_same s : with_cursor (lastProcessedBlock s) s = s.
Proof. by destruct s. Qed.

Lemma onBlock_queries cfg w height s :
  queries (since s (Poll.onBlock cfg w height s).2)
  = if (height <? range_start height s)%Z then []
    else [mkFilter (TOKEN_ADDRESS cfg) [TRANSFER_TOPIC] (range_start height s) height].
Proof.
  unfold Poll.onBlock, try_catch. rewrite pass_run. cbv zeta.
  destruct (height <? range_start height s)%Z; [unfold since; simpl; by rewrite drop_all|].
  destruct (getLogs w (tick s) _) as [logs|].
  2:{ rewrite emit_run, advance_advance. unfold since. simpl.
      by rewrite drop_app_length. }
  match goal with |- context [Poll.for_logs cfg w logs ?s0] =>
    destruct (for_logs_no_fetch cfg w logs s0) as (tr & E & Hq);
    destruct (Poll.for_logs cfg w logs s0) as [[[]|e] s2] end; simpl in *.
  - unfold since. simpl. rewrite E. simpl. rewrite <- app_assoc, drop_app_length.
    rewrite queries_app, (no_fetch_queries _ Hq). done.
  - unfold since. simpl. rewrite E. simpl. rewrite <- !app_assoc, drop_app_length.
    rewrite !queries_app, (no_fetch_queries _ Hq). done.
Qed.

(** Each block notification asks [getLogs] at most once.  The first one of a
    process asks for the notified block alone; with a cursor other than 0
    a notification above the cursor asks for the blocks from the cursor plus
    one to the notified height, and one at or below the cursor changes
    nothing at all.  The query always carries [TOKEN_ADDRESS] and the
    [Transfer] topic. *)
Theorem one_range_per_notification (cfg : Config) (w : World) (height : Z) :
  queries (since initial (Poll.onBlock cfg w height initial).2)
  = [mkFilter (TOKEN_ADDRESS cfg) [TRANSFER_TOPIC] height height]
  ∧ ∀ s, lastProcessedBlock s ≠ 0 →
      ((height ≤ lastProcessedBlock s)%Z →
       Poll.onBlock cfg w height s = (Return tt, s))
      ∧ ((lastProcessedBlock s < height)%Z →
         queries (since s (Poll.onBlock cfg w height s).2)
         = [mkFilter (TOKEN_ADDRESS cfg) [TRANSFER_TOPIC] (lastProcessedBlock s + 1) height]).
Proof.
  split.
  - rewrite onBlock_queries, range_start_initial.
    by assert ((height <? height)%Z = false) as -> by (apply Z.ltb_ge; lia).
  - intros s Hnz. split; intros Hcmp.
    + unfold Poll.onBlock, try_catch. rewrite pass_run. cbv zeta.
      rewrite (range_start_cursor height s Hnz).
      assert ((height <? lastProcessedBlock s + 1)%Z = true) as -> by (apply Z.ltb_lt; lia).
      replace (lastProcessedBlock s + 1 - 1) with (lastProcessedBlock s) by lia.
      by rewrite with_cursor_same.
    + rewrite onBlock_queries, (range_start_cursor height s Hnz).
      by assert ((height <? lastProcessedBlock s + 1)%Z = false) as -> by (apply Z.ltb_ge; lia).
Qed.

Lemma one_range_per_notification_witness :
  let cfg := Scenario.cfg 1 in
  let w := Scenario.world Scenario.calm in
  let s := with_cursor 6 initial in
  Poll.onBlock cfg w 5 s = (Return tt, s)
  ∧ queries (since s (Poll.onBlock cfg w 9 s).2)
    = [mkFilter (Some Scenario.token) [TRANSFER_TOPIC] 7 9].
Proof.
  cbv zeta.
  destruct (one_range_per_notification (Scenario.cfg 1) (Scenario.world Scenario.calm) 5)
    as [_ H5].
  destruct (one_range_per_notification (Scenario.cfg 1) (Scenario.world Scenario.calm) 9)
    as [_ H9].
  split.
  - apply (H5 (with_cursor 6 initial)); [discriminate | vm_compute; discriminate].
  - apply (H9 (with_cursor 6 initial)); [discriminate | reflexivity].
Defined.

Lemma notifications_monotone cfg w heights :
  Forall (fun b => (1 ≤ b)%Z) heights →
  ∀ s, (0 ≤ lastProcessedBlock s)%Z →
       (lastProcessedBlock s ≤ lastProcessedBlock (Poll.notifications cfg w heights s))%Z.
Proof.
  induction 1 as [|b rest Hb _ IH]; intros s Hs; simpl; [lia|].
  pose proof (onBlock_monotone cfg w b s Hb Hs) as H1.
  etransitivity; [exact H1 | apply IH; lia].
Qed.

(** A pass of the block listener run with no other pass in flight always
    resolves, leaving the cursor at the notified height or one below the
    start of the range it computed; when the passes run one after the
    other, each complete before the next starts, on heights of at least 1,
    the cursor never decreases.  Nothing in the listener makes the passes
    wait for one another: with the passes for heights 10 and 11 in flight
    together and the later one answered first, the cursor goes from 9 to 11
    and then back to 10. *)
Theorem block_listener_is_contained (cfg : Config) (w : World) :
  (∀ height s,
     (Poll.onBlock cfg w height s).1 = Return tt
     ∧ (lastProcessedBlock (Poll.onBlock cfg w height s).2 = height
        ∨ lastProcessedBlock (Poll.onBlock cfg w height s).2 = range_start height s - 1))
  ∧ (∀ heights s,
      Forall (fun b => (1 ≤ b)%Z) heights → (0 ≤ lastProcessedBlock s)%Z →
      (lastProcessedBlock s ≤ lastProcessedBlock (Poll.notifications cfg w heights s))%Z)
  ∧ (let calm := Scenario.world Scenario.calm in
     let first := onBlock_async (Scenario.cfg 1) calm 10 initial in
     let second := onBlock_async (Scenario.cfg 1) calm 11 first.2 in
     cursor_history [1%nat; 0%nat] [first.1; second.1] second.2 = [9; 11; 10]).
Proof.
  split; [|split].
  - intros height s. split; [apply onBlock_returns | apply onBlock_cursor].
  - intros heights s Hh Hs. by apply notifications_monotone.
  - vm_compute. reflexivity.
Qed.

Lemma block_listener_is_contained_witness :
  (0 ≤ lastProcessedBlock
         (Poll.notifications (Scenario.cfg 1) (Scenario.world Scenario.young)
            [1; 2; 2; 1; 5] initial))%Z.
Proof.
  apply (proj1 (proj2 (block_listener_is_contained (Scenario.cfg 1)
                         (Scenario.world Scenario.young)))
           [1; 2; 2; 1; 5] initial).
  - repeat constructor; lia.
  - reflexivity.
Defined.

(** ** The subscription listener *)

Lemma onLog_cursor cfg w log : preserves (same lastProcessedBlock) (Push.onLog cfg w log).
Proof.
  unfold Push.onLog, provider_getBlockNumber.
  preserves_auto; apply handleLog_cursor.
Qed.

Lemma onLog_returns cfg w log s : (Push.onLog cfg w log s).1 = Return tt.
Proof.
  unfold Push.onLog. destruct log as [log|]; [|done].
  destruct (String.eqb (transactionHash log) EmptyString); [done|]. cbv zeta.
  unfold bind at 1.
  destruct (CONFIRMATIONS cfg >? 1)%Z; simpl; [|apply handleLog_returns].
  unfold try_catch at 1. unfold bind at 1. rewrite provider_getBlockNumber_run.
  destruct (getBlockNumber w (tick s)) as [latest|]; simpl; [|apply handleLog_returns].
  destruct (blockNumber log + CONFIRMATIONS cfg - 1 >? latest)%Z; simpl;
    [done | apply handleLog_returns].
Qed.

(** The subscription listener always resolves and never writes the block
    cursor.  A missing log, or one without a transaction hash, changes
    nothing; and without a confirmation requirement the listener is
    [handleLog] itself, with no head query. *)
Theorem log_listener_is_contained (cfg : Config) (w : World) (s : State) :
  (∀ log, (Push.onLog cfg w log s).1 = Return tt
          ∧ lastProcessedBlock (Push.onLog cfg w log s).2 = lastProcessedBlock s)
  ∧ Push.onLog cfg w None s = (Return tt, s)
  ∧ (∀ log, transactionHash log = EmptyString →
            Push.onLog cfg w (Some log) s = (Return tt, s))
  ∧ (∀ log, transactionHash log ≠ EmptyString → (CONFIRMATIONS cfg ≤ 1)%Z →
            Push.onLog cfg w (Some log) s = handleLog cfg w log s).
Proof.
  split; [intros log; split; [apply onLog_returns | apply onLog_cursor]|].
  split; [done|]. split.
  - intros log Hh. unfold Push.onLog. by rewrite Hh.
  - intros log Hh Hc. apply String.eqb_neq in Hh. unfold Push.onLog.
    rewrite Hh. cbv zeta. by rewrite (gtb_false _ Hc).
Qed.

Lemma log_listener_is_contained_witness :
  let cfg := Scenario.cfg 1 in
  let w := Scenario.world Scenario.calm in
  Push.onLog cfg w (Some Scenario.twin_a) initial = handleLog cfg w Scenario.twin_a initial.
Proof.
  cbv zeta.
  apply (proj2 (proj2 (proj2 (log_listener_is_contained (Scenario.cfg 1)
           (Scenario.world Scenario.calm) initial)))); [discriminate | vm_compute; discriminate].
Defined.

Lemma fire_all_run w l s :
  Push.fire_all w l s = (Return tt, advance (length l) (timer_event <$> l) s).
Proof.
  revert s. induction l as [|[ms [n]] rest IH]; intros s.
  - simpl. unfold ret, advance. destruct s. simpl. by rewrite app_nil_r.
  - cbn [Push.fire_all Push.fire]. unfold bind at 1, provider_getBlock_caught.
    unfold bind at 1, ask. rewrite emit_run. simpl. rewrite IH.
    unfold advance. simpl. do 2 f_equal; [lia | by rewrite <- app_assoc].
Qed.

(** When the pending timers expire, each one asks the node for its block
    and discards the answer; that is all.  No log is decoded, no message is
    sent, and the caches and the cursor are as before: a log put aside by the
    confirmation check is never looked at again. *)
Theorem expired_timers_do_nothing (w : World) (s : State) :
  Push.expire w s
  = (Return tt, advance (length (timers s)) (timer_event <$> timers s) (with_timers [] s))
  ∧ decoded (since s (Push.expire w s).2) = []
  ∧ dispatched (since s (Push.expire w s).2) = [].
Proof.
  assert (Push.expire w s
          = (Return tt,
             advance (length (timers s)) (timer_event <$> timers s) (with_timers [] s))) as E.
  { unfold Push.expire. unfold bind at 1, gets. unfold bind at 1, set_timers.
    by rewrite fire_all_run. }
  split; [exact E|]. rewrite E. unfold since. simpl. rewrite drop_app_length.
  unfold decoded, dispatched.
  clear E. generalize (timers s) as l.
  induction l as [|[ms [n]] rest IH]; [done | exact IH].
Qed.

(** ** The seen set along a run *)

Global Instance keeps_preorder (P : State → Prop) : PreOrder (keeps P).
Proof.
  split; [intros s H; exact H | intros s1 s2 s3 H12 H23 H; exact (H23 (H12 H))].
Qed.

Lemma handleLog_seen_ok cfg w log : preserves (keeps seen_ok) (handleLog cfg w log).
Proof.
  intros s [Hwf Hsz]. split; [by apply handleLog_seen_wf|].
  destruct (handleLog_handled cfg w log s) as (s' & -> & H). simpl.
  destruct (handled_seen_set _ _ _ _ _ H) as [[-> _] | (-> & _)]; [done|].
  by apply size_record_seen.
Qed.

Ltac keeps_auto :=
  repeat first [ by intros ? ? | apply handleLog_seen_ok | preserves_step ].

Lemma for_logs_seen_ok cfg w logs : preserves (keeps seen_ok) (Poll.for_logs cfg w logs).
Proof.
  induction logs as [|log rest IH]; simpl; [keeps_auto|].
  apply preserves_bind; [typeclasses eauto | | intros _; exact IH].
  unfold Poll.gate, provider_getBlockNumber. keeps_auto.
Qed.

Lemma onBlock_seen_ok cfg w height : preserves (keeps seen_ok) (Poll.onBlock cfg w height).
Proof.
  unfold Poll.onBlock, Poll.pass, Poll.first_run, provider_getLogs.
  keeps_auto; apply for_logs_seen_ok.
Qed.

Lemma onLog_seen_ok cfg w log : preserves (keeps seen_ok) (Push.onLog cfg w log).
Proof. unfold Push.onLog, provider_getBlockNumber. keeps_auto. Qed.

(** From a fresh process, after any sequence of block notifications, or of
    log events, in any world, the seen set holds no identifier twice and at
    most 1000 of them. *)
Theorem seen_set_bounded_along_any_run (cfg : Config) (w : World) :
  (∀ heights, seen_ok (Poll.notifications cfg w heights initial))
  ∧ (∀ logs, seen_ok (push_events cfg w logs initial)).
Proof.
  assert (seen_ok initial) as H0.
  { split; [apply NoDup_nil_2 | unfold JsSet.size, ceiling; cbn; lia]. }
  split.
  - intros heights. revert H0. generalize initial.
    induction heights as [|b rest IH]; intros s Hs; [done|].
    simpl. apply IH. by apply onBlock_seen_ok.
  - intros logs. revert H0. generalize initial.
    induction logs as [|l rest IH]; intros s Hs; [done|].
    simpl. apply IH. by apply onLog_seen_ok.
Qed.

(** ** Start-up *)

Lemma truthy_false v : Boot.truthy v = false ↔ v = None ∨ v = Some EmptyString.
Proof.
  destruct v as [[|c r]|]; simpl; split; try done; auto.
  - intros [H|H]; discriminate.
Qed.

(** The process starts listening exactly when the three required variables
    are set and not empty and the two head queries and [getMe] succeed, after
    exactly those three calls; otherwise it exits with status 1, and when a
    required variable is missing or empty it does so before any call. *)
Theorem startup_listens_or_exits_1 (env : Boot.Env) (sv : Boot.Services) :
  ((Boot.main env sv).1 = Boot.Listening
   ↔ Boot.env_ok env = true
     ∧ is_Some (Boot.head_reply sv 0) ∧ is_Some (Boot.head_reply sv 1)
     ∧ is_Some (Boot.getMe_reply sv 2))
  ∧ ((Boot.main env sv).1 = Boot.Listening →
     (Boot.main env sv).2 = [Boot.GetBlockNumber; Boot.GetBlockNumber; Boot.GetMe])
  ∧ ((Boot.main env sv).1 ≠ Boot.Listening → (Boot.main env sv).1 = Boot.Exit 1)
  ∧ (∀ k, k ∈ Boot.required → env !! k = None ∨ env !! k = Some EmptyString →
          Boot.main env sv = (Boot.Exit 1, [])).
Proof.
  unfold Boot.main. split; [|split; [|split]].
  - destruct (Boot.env_ok env); simpl; [|split; [done | by intros [? _]]].
    destruct (Boot.head_reply sv 0); simpl;
      [|split; [done | intros (_ & [? ?] & _); discriminate]].
    destruct (Boot.head_reply sv 1); simpl;
      [|split; [done | intros (_ & _ & [? ?] & _); discriminate]].
    destruct (Boot.getMe_reply sv 2); simpl;
      [|split; [done | intros (_ & _ & _ & [? ?]); discriminate]].
    split; [intros _; repeat split; eauto | done].
  - destruct (Boot.env_ok env); simpl; [|done].
    destruct (Boot.head_reply sv 0); simpl; [|done].
    destruct (Boot.head_reply sv 1); simpl; [|done].
    by destruct (Boot.getMe_reply sv 2).
  - destruct (Boot.env_ok env); simpl; [|done].
    destruct (Boot.head_reply sv 0); simpl; [|done].
    destruct (Boot.head_reply sv 1); simpl; [|done].
    by destruct (Boot.getMe_reply sv 2).
  - intros k Hk Hmiss. apply truthy_false in Hmiss.
    assert (Boot.env_ok env = false) as ->; [|done].
    unfold Boot.env_ok, Boot.required in *.
    repeat (apply elem_of_cons in Hk as [->|Hk];
            [rewrite Hmiss; simpl; by rewrite ?andb_false_r|]).
    by apply elem_of_nil in Hk.
Qed.

Lemma startup_listens_or_exits_1_witness :
  Boot.main Cases.env Cases.online
  = (Boot.Listening, [Boot.GetBlockNumber; Boot.GetBlockNumber; Boot.GetMe])
  ∧ Boot.main (delete "TELEGRAM_TOKEN" Cases.env) Cases.online = (Boot.Exit 1, []).
Proof.
  destruct (startup_listens_or_exits_1 (delete "TELEGRAM_TOKEN" Cases.env) Cases.online)
    as (_ & _ & _ & H).
  split; [vm_compute; reflexivity|].
  apply (H "TELEGRAM_TOKEN").
  - apply (bool_decide_unpack _). vm_compute. exact I.
  - left. apply lookup_delete_eq.
Defined.

(** ** Calls in flight *)

Lemma finish_continue {A B} (x : Async A) (k : A → Segment B) (h : JsError → Segment B) s :
  finish (continue x k h s).1 (continue x k h s).2
  = match finish x s with
    | (Return a, s') => alone (k a) s'
    | (Throw e, s') => alone (h e) s'
    end.
Proof.
  revert s. induction x as [[a|e]|next IH after]; intros s; simpl; [done | done |].
  apply IH.
Qed.

Lemma alone_now {A} (c : M A) s : alone (now c) s = c s.
Proof. unfold alone, now. simpl. by destruct (c s). Qed.

Lemma alone_later {A} (c : M A) s : alone (later c) s = c s.
Proof. unfold alone, later, suspend, now. simpl. by destruct (c s). Qed.

Lemma alone_await {A} (c : Segment A) s : alone (await c) s = alone c s.
Proof. unfold alone, await. by destruct (c s).1. Qed.

Lemma alone_abind {A B} (c : Segment A) (k : A → Segment B) (c' : M A) (k' : A → M B) :
  (∀ s, alone c s = c' s) → (∀ a s, alone (k a) s = k' a s) →
  ∀ s, alone (abind c k) s = bind c' k' s.
Proof.
  intros Hc Hk s. unfold alone at 1, abind. rewrite finish_continue.
  specialize (Hc s). unfold alone in Hc. unfold bind. rewrite <- Hc.
  destruct (finish (c s).1 (c s).2) as [[a|e] s']; [apply Hk | apply alone_now].
Qed.

Lemma alone_atry {A} (c : Segment A) (h : JsError → Segment A) (c' : M A)
    (h' : JsError → M A) :
  (∀ s, alone c s = c' s) → (∀ e s, alone (h e) s = h' e s) →
  ∀ s, alone (atry c h) s = try_catch c' h' s.
Proof.
  intros Hc Hh s. unfold alone at 1, atry. rewrite finish_continue.
  specialize (Hc s). unfold alone in Hc. unfold try_catch. rewrite <- Hc.
  destruct (finish (c s).1 (c s).2) as [[a|e] s']; [apply alone_now | apply Hh].
Qed.

Section OverlapFacts.

Context (cfg : Config) (w : World).

Lemma alone_pRetry_from {A} (fn : Segment A) (fn' : M A) o attempt left :
  (∀ s, alone fn s = fn' s) →
  ∀ s, alone (pRetry_from_async fn o attempt left) s = pRetry_from fn' o attempt left s.
Proof.
  intros Hfn. revert attempt. induction left as [|left IH]; intros attempt; simpl.
  - apply alone_atry; [done|]. intros e s. destruct (gives_up e); apply alone_now.
  - apply alone_atry; [done|]. intros e s. destruct (gives_up e); [apply alone_now|].
    revert s. apply alone_abind; [apply alone_later | intros _; apply IH].
Qed.

(** Run with nothing in between, the pipeline with its [await]s is the
    pipeline. *)
Lemma alone_getTokenMeta a s : alone (getTokenMeta_async w a) s = getTokenMeta w a s.
Proof.
  revert s. unfold getTokenMeta_async, getTokenMeta.
  apply alone_abind; [apply alone_now | intros a'].
  apply alone_abind; [apply alone_now | intros cache].
  destruct (cache !! a'); [apply alone_now|].
  apply alone_abind.
  { intros s. rewrite alone_await. apply alone_pRetry_from, alone_later. }
  intros sym. apply alone_abind.
  { intros s. rewrite alone_await. apply alone_pRetry_from, alone_later. }
  intros dec. apply alone_abind; [apply alone_now | intros time].
  apply alone_abind; [apply alone_now | intros cache'].
  apply alone_abind; [apply alone_now | intros _; apply alone_now].
Qed.

Lemma alone_notify c parsed log s :
  alone (notify_async cfg w c parsed log) s = notify cfg w c parsed log s.
Proof.
  revert s. unfold notify_async, notify.
  apply alone_abind; [apply alone_now | intros tokenAddr].
  apply alone_abind.
  { apply alone_atry.
    - intros s. rewrite alone_await. apply alone_getTokenMeta.
    - intros e. apply alone_abind; [apply alone_now | intros _; apply alone_now]. }
  intros meta. apply alone_abind; [apply alone_later | intros _].
  apply alone_abind; [apply alone_now | intros seen; apply alone_now].
Qed.

Lemma alone_handleLog log s : alone (handleLog_async cfg w log) s = handleLog cfg w log s.
Proof.
  revert s. unfold handleLog_async, handleLog.
  apply alone_atry; [|intros e; apply alone_now].
  apply alone_abind; [apply alone_now | intros seen].
  destruct seen; [apply alone_now|].
  apply alone_abind; [apply alone_now | intros _].
  apply alone_abind; [apply alone_now | intros parsed].
  destruct (classify (from parsed) (to parsed));
    [apply alone_notify | apply alone_notify | apply alone_now].
Qed.

Lemma alone_onLog log s : alone (onLog_async cfg w log) s = Push.onLog cfg w log s.
Proof.
  unfold onLog_async, Push.onLog. destruct log as [log|]; [|apply alone_now].
  destruct (String.eqb (transactionHash log) EmptyString); [apply alone_now|].
  cbv zeta. revert s. apply alone_abind.
  - destruct (CONFIRMATIONS cfg >? 1)%Z; [|apply alone_now].
    apply alone_atry; [|intros _; apply alone_now].
    apply alone_abind; [apply alone_later | intros latest].
    destruct (blockNumber log + CONFIRMATIONS cfg - 1 >? latest)%Z; [|apply alone_now].
    apply alone_abind; [apply alone_now | intros _; apply alone_now].
  - intros returned. destruct returned; [apply alone_now | apply alone_handleLog].
Qed.

Lemma alone_gate log s : alone (gate_async cfg w log) s = Poll.gate cfg w log s.
Proof.
  unfold gate_async, Poll.gate. cbv zeta.
  destruct (CONFIRMATIONS cfg >? 1)%Z.
  - revert s. apply alone_abind; [apply alone_later | intros latest s].
    destruct (blockNumber log + CONFIRMATIONS cfg - 1 >? latest)%Z; [apply alone_now|].
    rewrite alone_await. apply alone_handleLog.
  - rewrite alone_await. apply alone_handleLog.
Qed.

Lemma alone_for_logs logs s :
  alone (for_logs_async cfg w logs) s = Poll.for_logs cfg w logs s.
Proof.
  revert s. induction logs as [|log rest IH]; simpl; [apply alone_now|].
  apply alone_abind; [apply alone_gate | intros _; apply IH].
Qed.

Lemma alone_onBlock height s :
  alone (onBlock_async cfg w height) s = Poll.onBlock cfg w height s.
Proof.
  revert s. unfold onBlock_async, Poll.onBlock.
  apply alone_atry; [|intros e; apply alone_now].
  unfold pass_async, Poll.pass.
  apply alone_abind; [apply alone_now | intros _].
  apply alone_abind; [apply alone_now | intros last]. cbv zeta.
  destruct (height <? last + 1)%Z; [apply alone_now|].
  apply alone_abind; [apply alone_later | intros logs].
  apply alone_abind; [apply alone_for_logs | intros _; apply alone_now].
Qed.

(** A call that starts when the transaction is in the seen set ends before
    its first [await], with the state as it found it, whatever else is in
    flight. *)
Lemma handleLog_async_seen log s :
  JsSet.has (transactionHash log) (lastSeenTx s) = true →
  handleLog_async cfg w log s = (Settled (Return tt), s).
Proof.
  intros H. unfold handleLog_async, atry, abind, now, gets. simpl. by rewrite H.
Qed.

End OverlapFacts.

Lemma Forall_by_computation {A} (P : A → Prop) (f : A → bool) (l : list A) :
  (∀ x, f x = true → P x) → forallb f l = true → Forall P l.
Proof.
  intros Hf. induction l as [|x l IH]; simpl; [constructor|].
  intros Hall. apply andb_true_iff in Hall as [Hx Hl].
  constructor; [by apply Hf | by apply IH].
Qed.

(** C10.  Two different mint logs of one transaction reach the
    subscription listener back to back.  The listener does not await
    [handleLog], and each call checks the seen set before either has
    recorded the transaction: in every order in which the two calls can then
    be resumed both logs are decoded and a message is delivered for each;
    the same holds when the same log arrives twice.  In the polling variant
    two passes in flight together, whose ranges both hold the transaction,
    do the same when they take turns.  Handled one after the other the two
    logs give one message. *)
Theorem overlapping_logs_are_both_notified :
  let cfg := Scenario.cfg 1 in
  let w := Scenario.world Scenario.calm in
  transactionHash Scenario.twin_a = transactionHash Scenario.twin_b
  ∧ Forall (fun order => tally cfg w Scenario.twin_a Scenario.twin_b order
                         = (2%nat, 2%nat, ["0x7717"])) (orders 6)
  ∧ Forall (fun order => tally cfg w Scenario.twin_a Scenario.twin_a order
                         = (2%nat, 2%nat, ["0x7717"])) (orders 6)
  ∧ (let s := overlapping_passes cfg w 9 10 (in_turns 1) initial in
     fetched (trace s) = [(9, 9); (9, 10)]
     ∧ length (delivered (trace s)) = 2%nat
     ∧ JsSet.elements (lastSeenTx s) = ["0x7717"])
  ∧ length (delivered (trace (handle_each cfg w [Scenario.twin_a; Scenario.twin_b] initial)))
    = 1%nat.
Proof.
  cbv zeta. split; [reflexivity|]. split; [|split; [|split]].
  - apply (Forall_by_computation _
             (fun order => bool_decide
                (tally (Scenario.cfg 1) (Scenario.world Scenario.calm)
                   Scenario.twin_a Scenario.twin_b order = (2%nat, 2%nat, ["0x7717"])))).
    + intros order. apply bool_decide_eq_true.
    + vm_compute. reflexivity.
  - apply (Forall_by_computation _
             (fun order => bool_decide
                (tally (Scenario.cfg 1) (Scenario.world Scenario.calm)
                   Scenario.twin_a Scenario.twin_a order = (2%nat, 2%nat, ["0x7717"])))).
    + intros order. apply bool_decide_eq_true.
    + vm_compute. reflexivity.
  - vm_compute. done.
  - vm_compute. reflexivity.
Qed.
